(** * stock_estimate: forward-backward stepwise feature selection

    A shallow embedding of [stepwise_selection] (src/stock_estimate.py,
    lines 5-51).  The function grows and prunes a Python list of column
    names by looking at the coefficient p-values of ordinary-least-squares
    fits.

    What is modelled, and how:
    - Python floats are IEEE-754 binary64 values ([spec_float]); [<] and [>]
      are the IEEE comparisons, so every comparison with NaN is false.
    - Python lists live in a store; a variable holding a list holds its
      address.  [included.append] and [included.remove] update the store in
      place.
    - a [pandas.DataFrame] is a list of labelled columns, a [pandas.Series]
      a list of labelled floats.
    - [sm.OLS(y, exog).fit().pvalues] is the one operation that is not code
      of this repository: it is a parameter [OLS], a function from the
      design matrix to one p-value per design column, or to no result when
      statsmodels raises.
    - the iteration order of a Python [set] is a parameter as well.
    - exceptions are results; the unbounded [while True] takes a fuel
      argument and reports when it runs out.
    - calls of the fit, list mutations and printed lines are recorded in a
      trace. *)

From Stdlib Require Import ZArith Floats.SpecFloat.
From stdpp Require Import base option list strings gmap.

Open Scope string_scope.
Open Scope list_scope.

(** ** Floats *)

Module Float.

Definition float : Type := spec_float.

Definition nan : float := S754_nan.

Definition isnan (x : float) : bool :=
  match x with S754_nan => true | _ => false end.

(** Python [x < y] and [x > y]. *)
Definition lt (x y : float) : bool := SFltb x y.
Definition gt (x y : float) : bool := SFltb y x.

(** The binary64 values of the literals [0.01] and [0.05], the defaults
    of [threshold_in] and [threshold_out]. *)
Definition lit_0_01 : float := S754_finite false 5764607523034235 (-59).
Definition lit_0_05 : float := S754_finite false 7205759403792794 (-57).

End Float.

Export Float.

(** ** Data *)

Abbreviation name := string.

(** A numeric column and a frame of labelled columns. *)
Abbreviation column := (list float).
Abbreviation DataFrame := (list (name * column)).
Abbreviation Series := (list (name * float)).

(** Addresses of list objects. *)
Definition loc : Type := nat.

Inductive exn : Type :=
  | KeyError (key : name)
  | ValueError
  | FitError.

(** The two lines the function prints. *)
Inductive message : Type :=
  | Add (feature : name) (pval : float)
  | Drop (feature : name) (pval : float).

Inductive event : Type :=
  | OLS_fit (exog : DataFrame)
  | list_append (x : name)
  | list_remove (x : name)
  | print (msg : message).

Record state : Type := State {
  heap : list (list name);
  trace : list event
}.

Inductive result (A : Type) : Type :=
  | Val (a : A)
  | Exn (e : exn)
  | OutOfFuel.

Arguments Val {A} a.
Arguments Exn {A} e.
Arguments OutOfFuel {A}.

(** ** The monads: exceptions, and exceptions over the state *)

#[global] Instance result_ret : MRet result := λ A a, Val a.

#[global] Instance result_bind : MBind result := λ A B f m,
  match m with
  | Val a => f a
  | Exn e => Exn e
  | OutOfFuel => OutOfFuel
  end.

Definition M (A : Type) : Type := state → result A * state.

#[global] Instance M_ret : MRet M := λ A a s, (Val a, s).

#[global] Instance M_bind : MBind M := λ A B f m s,
  match m s with
  | (Val a, s') => f a s'
  | (Exn e, s') => (Exn e, s')
  | (OutOfFuel, s') => (OutOfFuel, s')
  end.

Definition lift {A} (r : result A) : M A := λ s, (r, s).

Definition raise {A} (e : exn) : M A := λ s, (Exn e, s).

Definition log (ev : event) : M unit := λ s,
  (Val tt, State (heap s) (trace s ++ [ev])).

(** [for x in xs: acc = body(acc, x)] *)
Fixpoint for_in {A S} (xs : list A) (body : S → A → M S) (acc : S) : M S :=
  match xs with
  | [] => mret acc
  | x :: xs' => acc' ← body acc x; for_in xs' body acc'
  end.

(** ** Python lists in the store *)

(** [l.remove(x)] deletes the first occurrence of [x]; there is none when
    the result is [None]. *)
Fixpoint remove_first (x : name) (l : list name) : option (list name) :=
  match l with
  | [] => None
  | z :: l' =>
      if decide (z = x) then Some l'
      else (z ::.) <$> remove_first x l'
  end.

Definition list_get (a : loc) : M (list name) := λ s,
  (Val (default [] (heap s !! a)), s).

(** [list(a)]: a new list object with the same elements. *)
Definition list_copy (a : loc) : M loc := λ s,
  (Val (length (heap s)),
   State (heap s ++ [default [] (heap s !! a)]) (trace s)).

(** [a.append(x)] *)
Definition append (a : loc) (x : name) : M unit := λ s,
  (Val tt,
   State (<[a := default [] (heap s !! a) ++ [x]]> (heap s))
         (trace s ++ [list_append x])).

(** [a.remove(x)], which raises [ValueError] when [x] is not in the list. *)
Definition remove (a : loc) (x : name) : M unit := λ s,
  match remove_first x (default [] (heap s !! a)) with
  | Some l' =>
      (Val tt, State (<[a := l']> (heap s)) (trace s ++ [list_remove x]))
  | None => (Exn ValueError, s)
  end.

(** ** pandas *)

(** [df.columns] *)
Definition columns (df : DataFrame) : list name := df.*1.

(** [df[cols]]: for each requested label, in the order requested, the
    columns of [df] that carry it; [KeyError] for a label [df] lacks. *)
Fixpoint getitem (df : DataFrame) (cols : list name) : result DataFrame :=
  match cols with
  | [] => Val []
  | c :: cols' =>
      match filter (λ kv, kv.1 = c) df with
      | [] => Exn (KeyError c)
      | sel => rest ← getitem df cols'; mret (sel ++ rest)
      end
  end.

(** [pd.Series(index=index, dtype='float64')]: all NaN. *)
Definition Series_new (index : list name) : Series := (., nan) <$> index.

(** [s[label]]: the value at a label that occurs once.  At a label that
    occurs more than once pandas answers with a sub-series, which the
    assignment on line 30 cannot store in one float slot. *)
Definition Series_getitem (s : Series) (label : name) : result float :=
  match filter (λ kv, kv.1 = label) s with
  | [] => Exn (KeyError label)
  | [kv] => Val kv.2
  | _ => Exn ValueError
  end.

(** [s[label] = v]: overwrite at a label of the index, append otherwise. *)
Definition Series_setitem (s : Series) (label : name) (v : float) : Series :=
  if decide (label ∈ s.*1)
  then (λ kv, if decide (kv.1 = label) then (kv.1, v) else kv) <$> s
  else s ++ [(label, v)].

(** The NaN-skipping reductions [min], [argmin], [max], [argmax] share one
    scan: position and value of the first entry that no other non-NaN
    entry beats; nothing when every entry is NaN or there is none. *)
Fixpoint nan_extremum (beats : float → float → bool) (vals : list float)
    : option (nat * float) :=
  match vals with
  | [] => None
  | v :: vals' =>
      let rest := prod_map S id <$> nan_extremum beats vals' in
      if isnan v then rest
      else match rest with
           | Some (j, m) => if beats m v then Some (j, m) else Some (0, v)
           | None => Some (0, v)
           end
  end.

Definition Series_min (s : Series) : float :=
  from_option snd nan (nan_extremum lt s.*2).

Definition Series_argmin (s : Series) : option nat :=
  fst <$> nan_extremum lt s.*2.

Definition Series_max (s : Series) : float :=
  from_option snd nan (nan_extremum gt s.*2).

Definition Series_argmax (s : Series) : option nat :=
  fst <$> nan_extremum gt s.*2.

(** [s.index[s.argmin()]] and [s.index[s.argmax()]]; the reduction of an
    all-NaN series has no position to offer. *)
Definition index_at (s : Series) (pos : option nat) : result name :=
  match pos ≫= (s.*1 !!.) with
  | Some label => Val label
  | None => Exn ValueError
  end.

(** ** Python sets *)

(** [list(s)] enumerates a set in an order the language does not fix: each
    element once. *)
Class SetOrder : Type := {
  list_of_set : gset name → list name;
  NoDup_list_of_set s : NoDup (list_of_set s);
  elem_of_list_of_set x s : x ∈ list_of_set s ↔ x ∈ s
}.

(** ** stepwise_selection *)

Section stepwise_selection.

Context (X : DataFrame) (y : column).

(** [OLS y exog] is [sm.OLS(y, exog).fit().pvalues] by position: the
    p-value of the coefficient of the [i]-th column of [exog]. *)
Context (OLS : column → DataFrame → option (nat → float)).

Context `{SetOrder}.

(** The p-values as pandas hands them over: indexed by the labels of the
    design matrix. *)
Definition pvalues_of (exog : DataFrame) (p : nat → float) : Series :=
  imap (λ i kv, (kv.1, p i)) exog.

(** [sm.OLS(y, pd.DataFrame(exog)).fit().pvalues] *)
Definition sm_OLS_fit_pvalues (exog : DataFrame) : M Series :=
  log (OLS_fit exog);;
  match OLS y exog with
  | Some p => mret (pvalues_of exog p)
  | None => raise FitError
  end.

Section call.

Context (threshold_in threshold_out : float) (verbose : bool).

(** Lines 26-37. *)
Definition forward_step (included : loc) : M bool :=
  cur ← list_get included;
  let excluded :=
    list_of_set (list_to_set (columns X) ∖ list_to_set cur) in
  new_pval ← for_in excluded (λ new_pval new_column,
      cur ← list_get included;
      exog ← lift (getitem X (cur ++ [new_column]));
      pvalues ← sm_OLS_fit_pvalues exog;
      p ← lift (Series_getitem pvalues new_column);
      mret (Series_setitem new_pval new_column p))
    (Series_new excluded);
  let best_pval := Series_min new_pval in
  if lt best_pval threshold_in then
    best_feature ← lift (index_at new_pval (Series_argmin new_pval));
    append included best_feature;;
    (if verbose then log (print (Add best_feature best_pval))
     else mret tt);;
    mret true
  else mret false.

(** Lines 39-48. *)
Definition backward_step (included : loc) (changed : bool) : M bool :=
  cur ← list_get included;
  exog ← lift (getitem X cur);
  pvalues ← sm_OLS_fit_pvalues exog;
  let worst_pval := Series_max pvalues in
  if gt worst_pval threshold_out then
    worst_feature ← lift (index_at pvalues (Series_argmax pvalues));
    remove included worst_feature;;
    (if verbose then log (print (Drop worst_feature worst_pval))
     else mret tt);;
    mret true
  else mret changed.

(** Lines 23-50: [while True], one unit of fuel per pass. *)
Fixpoint while_True (fuel : nat) (included : loc) : M unit :=
  match fuel with
  | 0 => λ s, (OutOfFuel, s)
  | S fuel' =>
      changed ← forward_step included;
      changed ← backward_step included changed;
      if negb changed then mret tt
      else while_True fuel' included
  end.

(** Lines 22-51. *)
Definition stepwise_selection (initial_list : loc) (fuel : nat) : M loc :=
  included ← list_copy initial_list;
  while_True fuel included;;
  mret included.

(** *** The same, as functions of the list stored at [included]

    The value-level reading of the three definitions above: the events
    a run appends to the trace, the list it leaves at [included], and
    its result.  [forward_step_run], [backward_step_run] and
    [while_True_run] below show that the store-level definitions
    compute exactly these. *)

(** One iteration of the loop on lines 28-30, without the bookkeeping:
    the p-value of [c] in the fit on [cur ++ [c]]. *)
Definition candidate_pvalue (cur : list name) (c : name) : result float :=
  exog ← getitem X (cur ++ [c]);
  p ← from_option Val (Exn FitError) (OLS y exog);
  Series_getitem (pvalues_of exog p) c.

Definition candidate_events (cur : list name) (c : name) : list event :=
  match getitem X (cur ++ [c]) with
  | Val exog => [OLS_fit exog]
  | _ => []
  end.

(** A step that does not go on: [r] is an exception or the end of the
    fuel, passed on at the type of the caller. *)
Definition stop {A B} (evs : list event) (cur : list name) (r : result A)
    : list event * list name * result B :=
  (evs, cur, match r with Exn e => Exn e | _ => OutOfFuel end).

Fixpoint scan_val (cur cs : list name) (acc : Series)
    : list event * result Series :=
  match cs with
  | [] => ([], Val acc)
  | c :: cs' =>
      match candidate_pvalue cur c with
      | Val p =>
          let rest := scan_val cur cs' (Series_setitem acc c p) in
          (candidate_events cur c ++ rest.1, rest.2)
      | Exn e => (candidate_events cur c, Exn e)
      | OutOfFuel => (candidate_events cur c, OutOfFuel)
      end
  end.

Definition excluded_of (cur : list name) : list name :=
  list_of_set (list_to_set (columns X) ∖ list_to_set cur).

Definition forward_val (cur : list name)
    : list event * list name * result bool :=
  let excluded := excluded_of cur in
  let scan := scan_val cur excluded (Series_new excluded) in
  match scan.2 with
  | Val new_pval =>
      let best_pval := Series_min new_pval in
      if lt best_pval threshold_in then
        match index_at new_pval (Series_argmin new_pval) with
        | Val best_feature =>
            (scan.1 ++ list_append best_feature ::
               (if verbose then [print (Add best_feature best_pval)]
                else []),
             cur ++ [best_feature], Val true)
        | r => stop scan.1 cur r
        end
      else (scan.1, cur, Val false)
  | r => stop scan.1 cur r
  end.

Definition backward_val (cur : list name) (changed : bool)
    : list event * list name * result bool :=
  match getitem X cur with
  | Val exog =>
      match OLS y exog with
      | Some p =>
          let pvalues := pvalues_of exog p in
          let worst_pval := Series_max pvalues in
          if gt worst_pval threshold_out then
            match index_at pvalues (Series_argmax pvalues) with
            | Val worst_feature =>
                match remove_first worst_feature cur with
                | Some cur' =>
                    (OLS_fit exog :: list_remove worst_feature ::
                       (if verbose
                        then [print (Drop worst_feature worst_pval)]
                        else []),
                     cur', Val true)
                | None => ([OLS_fit exog], cur, Exn ValueError)
                end
            | r => stop [OLS_fit exog] cur r
            end
          else ([OLS_fit exog], cur, Val changed)
      | None => ([OLS_fit exog], cur, Exn FitError)
      end
  | r => stop [] cur r
  end.

Fixpoint while_val (fuel : nat) (cur : list name)
    : list event * list name * result unit :=
  match fuel with
  | 0 => ([], cur, OutOfFuel)
  | S fuel' =>
      let '(evs1, cur1, r1) := forward_val cur in
      match r1 with
      | Val changed =>
          let '(evs2, cur2, r2) := backward_val cur1 changed in
          match r2 with
          | Val changed =>
              if negb changed then (evs1 ++ evs2, cur2, Val tt)
              else
                let '(evs3, cur3, r3) := while_val fuel' cur2 in
                (evs1 ++ evs2 ++ evs3, cur3, r3)
          | r => stop (evs1 ++ evs2) cur2 r
          end
      | r => stop evs1 cur1 r
      end
  end.

(** *** What a step can do

    The outcomes of the two steps, case by case; [forward_val_spec] and
    [backward_val_spec] show that there are no others. *)

Definition printed (msg : message) : list event :=
  if verbose then [print msg] else [].

Inductive forward_spec (cur : list name)
    : list event * list name * result bool → Prop :=
  | forward_add f p :
      f ∈ columns X → f ∉ cur →
      candidate_pvalue cur f = Val p →
      lt p threshold_in = true →
      (∀ c q, c ∈ columns X → c ∉ cur →
         candidate_pvalue cur c = Val q → lt q p = false) →
      forward_spec cur
        ((excluded_of cur ≫= candidate_events cur)
           ++ list_append f :: printed (Add f p),
         cur ++ [f], Val true)
  | forward_keep :
      (∀ c, c ∈ columns X → c ∉ cur →
         ∃ q, candidate_pvalue cur c = Val q ∧
           lt q threshold_in = false) →
      forward_spec cur
        (excluded_of cur ≫= candidate_events cur, cur, Val false)
  | forward_fail k c e :
      c ∈ columns X → c ∉ cur →
      candidate_pvalue cur c = Exn e →
      forward_spec cur
        (take k (excluded_of cur) ≫= candidate_events cur, cur, Exn e).

Inductive backward_spec (cur : list name) (changed : bool)
    : list event * list name * result bool → Prop :=
  | backward_drop exog p i f q cur' :
      getitem X cur = Val exog → OLS y exog = Some p →
      pvalues_of exog p !! i = Some (f, q) →
      gt q threshold_out = true →
      (∀ g q', (g, q') ∈ pvalues_of exog p → gt q' q = false) →
      remove_first f cur = Some cur' →
      backward_spec cur changed
        (OLS_fit exog :: list_remove f :: printed (Drop f q),
         cur', Val true)
  | backward_keep exog p :
      getitem X cur = Val exog → OLS y exog = Some p →
      (∀ g q, (g, q) ∈ pvalues_of exog p →
         gt q threshold_out = false) →
      backward_spec cur changed ([OLS_fit exog], cur, Val changed)
  | backward_fail_key k :
      getitem X cur = Exn (KeyError k) → k ∈ cur → k ∉ columns X →
      backward_spec cur changed ([], cur, Exn (KeyError k))
  | backward_fail_fit exog :
      getitem X cur = Val exog → OLS y exog = None →
      backward_spec cur changed ([OLS_fit exog], cur, Exn FitError).

End call.

End stepwise_selection.

(** ** Evaluating a definition of the function, and calling it *)

(** [def stepwise_selection(..., initial_list=[], ...)]: the default list
    is built once, when the [def] statement runs, and the function keeps
    its address. *)
Definition def_stepwise_selection : M loc := λ s,
  (Val (length (heap s)), State (heap s ++ [[]]) (trace s)).

(** The arguments of one call besides [X], [y] and [initial_list]. *)
Record call_args : Type := Args {
  arg_threshold_in : float;
  arg_threshold_out : float;
  arg_verbose : bool;
  arg_fuel : nat
}.

(** A sequence of calls that all leave [initial_list] to its default; the
    caller goes on whatever a call does. *)
Fixpoint calls_with_default (X : DataFrame) (y : column)
    (OLS : column → DataFrame → option (nat → float)) `{SetOrder}
    (default_list : loc) (calls : list call_args) (s : state) : state :=
  match calls with
  | [] => s
  | c :: calls' =>
      calls_with_default X y OLS default_list calls'
        (stepwise_selection X y OLS (arg_threshold_in c)
           (arg_threshold_out c) (arg_verbose c) default_list (arg_fuel c)
           s).2
  end.

(** ** A small data set *)

Module Demo.

(** Sets enumerated by [elements]. *)
Definition order : SetOrder :=
  Build_SetOrder elements NoDup_elements (λ x s, elem_of_elements s x).

Definition f1 : float := S754_finite false 4503599627370496 (-52).
Definition f2 : float := S754_finite false 4503599627370496 (-51).
Definition f3 : float := S754_finite false 6755399441055744 (-51).

(** 0.5 and 0.001 *)
Definition half : float := S754_finite false 4503599627370496 (-53).
Definition milli : float := S754_finite false 4611686018427388 (-62).

Definition X : DataFrame := [("a", [f1; f2; f3]); ("b", [f3; f1; f2])].
Definition y : column := [f2; f3; f1].
Definition no_columns : DataFrame := [].

(** A table of p-values: [a] is significant alone and not beside [b],
    [b] is significant everywhere.  The fit rejects a design without
    columns. *)
Definition OLS (y : column) (exog : DataFrame) : option (nat → float) :=
  match exog with
  | [] => None
  | _ =>
      Some (λ i,
        match exog.*1 !! i with
        | Some k =>
            if decide (k = "a" ∧ "b" ∈ exog.*1) then half else milli
        | None => nan
        end)
  end.

(** The same table for a fit that accepts a design without columns. *)
Definition OLS_lenient (y : column) (exog : DataFrame)
    : option (nat → float) :=
  match exog with
  | [] => Some (λ _, nan)
  | _ => OLS y exog
  end.

(** A store with the default list at 0, [["a"; "b"]] at 1 and [["a"]]
    at 2. *)
Definition store : state := State [[]; ["a"; "b"]; ["a"]] [].

(** Three columns and a made-up table in which each column is
    insignificant beside the next one: [a] beside [b], [b] beside [c],
    [c] beside [a].  Whether least squares can produce such p-values is
    outside this development. *)
Definition X3 : DataFrame :=
  [("a", [f1; f2; f3]); ("b", [f3; f1; f2]); ("c", [f2; f3; f1])].

Definition OLS_cycle (y : column) (exog : DataFrame)
    : option (nat → float) :=
  Some (λ i,
    match exog.*1 !! i with
    | Some k =>
        if decide (k = "a" ∧ "b" ∈ exog.*1 ∨
                   k = "b" ∧ "c" ∈ exog.*1 ∨
                   k = "c" ∧ "a" ∈ exog.*1)
        then half else milli
    | None => nan
    end).


(** A table without ties: [a] is significant in every design, nothing
    else ever is. *)
Definition OLS_a (y : column) (exog : DataFrame) : option (nat → float) :=
  Some (λ i,
    match exog.*1 !! i with
    | Some k => if decide (k = "a") then milli else half
    | None => nan
    end).

(** Sets enumerated by [elements], backwards. *)
Definition order_rev : SetOrder.
Proof.
  refine (Build_SetOrder (λ s, reverse (elements s)) _ _).
  - intros s. rewrite reverse_Permutation. apply NoDup_elements.
  - intros x s. rewrite elem_of_reverse. apply elem_of_elements.
Defined.

End Demo.

(** The state after a run that appended [evs] to the trace and left
    [cur'] at [a]. *)
Definition after (s : state) (a : loc) (cur' : list name)
    (evs : list event) : state :=
  State (<[a := cur']> (heap s)) (trace s ++ evs).

(** ** Reading a trace *)

(** The list at [included] after the mutations a trace records, when it
    starts as [l]; none when the trace removes what the list lacks. *)
Fixpoint replay (evs : list event) (l : list name) : option (list name) :=
  match evs with
  | [] => Some l
  | list_append x :: evs' => replay evs' (l ++ [x])
  | list_remove x :: evs' => remove_first x l ≫= replay evs'
  | _ :: evs' => replay evs' l
  end.

(** The features a trace appends, in the order it appends them. *)
Definition appended (evs : list event) : list name :=
  omap (λ ev, match ev with list_append x => Some x | _ => None end) evs.

(** The features a trace removes. *)
Definition removed (evs : list event) : list name :=
  omap (λ ev, match ev with list_remove x => Some x | _ => None end) evs.

(** [exog] is the selection of the columns named by [l], or by [l] and one
    more column of [X] that is not in [l], appended last. *)
Definition fit_of (X : DataFrame) (l : list name) (exog : DataFrame) : Prop :=
  getitem X l = Val exog ∨
  ∃ c, c ∈ columns X ∧ (c ∉ l) ∧ getitem X (l ++ [c]) = Val exog.

(** Every fit a trace records is a fit of the list as it stands at that
    point, and every removal finds its element. *)
Fixpoint trace_ok (X : DataFrame) (l : list name) (evs : list event) : Prop :=
  match evs with
  | [] => True
  | OLS_fit exog :: evs' => fit_of X l exog ∧ trace_ok X l evs'
  | list_append x :: evs' => trace_ok X (l ++ [x]) evs'
  | list_remove x :: evs' =>
      match remove_first x l with
      | Some l' => trace_ok X l' evs'
      | None => False
      end
  | print _ :: evs' => trace_ok X l evs'
  end.

(** The invariant of the included list: names of columns of [X], each
    once. *)
Definition valid (X : DataFrame) (l : list name) : Prop :=
  NoDup l ∧ ∀ k, k ∈ l → k ∈ columns X.

(** A list that neither step would change: the fit of [y] on exactly its
    columns has no p-value above [threshold_out], and each column of [X]
    outside it, appended to it, gets a p-value that is not below
    [threshold_in]. *)
Definition fixed_point (X : DataFrame) (y : column)
    (OLS : column → DataFrame → option (nat → float))
    (threshold_in threshold_out : float) (included : list name) : Prop :=
  (∃ exog p, getitem X included = Val exog ∧ OLS y exog = Some p ∧
     ∀ f q, (f, q) ∈ pvalues_of exog p → gt q threshold_out = false) ∧
  (∀ c, c ∈ columns X → c ∉ included →
     ∃ exog p q, getitem X (included ++ [c]) = Val exog ∧
       OLS y exog = Some p ∧
       Series_getitem (pvalues_of exog p) c = Val q ∧
       lt q threshold_in = false).

(** ** Intercepts and decisions *)




(** ** More ways to read a trace *)

Definition is_print (ev : event) : bool :=
  match ev with print _ => true | _ => false end.

(** A trace without its printed lines, and the printed lines alone. *)
Definition silent (evs : list event) : list event :=
  filter (λ ev, is_print ev = false) evs.

Definition printed_lines (evs : list event) : list message :=
  omap (λ ev, match ev with print msg => Some msg | _ => None end) evs.

(** The designs a trace hands to the fit, in the order of the calls. *)
Definition fitted (evs : list event) : list DataFrame :=
  omap (λ ev, match ev with OLS_fit exog => Some exog | _ => None end) evs.

(** Two traces that differ only in the order of their events, and not in
    what they append, remove and print. *)
Definition same_up_to_order (evs' evs : list event) : Prop :=
  evs' ≡ₚ evs ∧ appended evs' = appended evs ∧
  removed evs' = removed evs ∧ printed_lines evs' = printed_lines evs.

(** What the trace of a run tells about its printing: with [verbose] the
    run prints one line per mutation, without it the run is the same run
    less the lines. *)
Definition same_but_silent {A}
    (loud quiet : list event * list name * result A) : Prop :=
  quiet = (silent loud.1.1, loud.1.2, loud.2) ∧
  printed_lines (silent loud.1.1) = [] ∧
  length (printed_lines loud.1.1)
    = length (appended loud.1.1) + length (removed loud.1.1).

(** ** The script around the function (lines 57-68)

    The script reads a spreadsheet, makes its [date] column the index,
    fills the gaps, takes the first column as the target and the others as
    candidates, selects with the defaults, and fits the target on the
    selection.  It is modelled from the frame as read and indexed to the
    final fit; reading the file, printing and plotting are left out.  Of
    the fitted model only the p-values are known here. *)

(** [fillna(method='ffill')] on one column: a missing value takes the last
    value present above it, and stays missing when there is none. *)
Fixpoint ffill_from (last : option float) (col : column) : column :=
  match col with
  | [] => []
  | v :: col' =>
      if isnan v then default v last :: ffill_from last col'
      else v :: ffill_from (Some v) col'
  end.

Definition ffill (col : column) : column := ffill_from None col.

(** [data.fillna(method='ffill')] *)
Definition fillna_ffill (df : DataFrame) : DataFrame :=
  prod_map id ffill <$> df.

(** [data.iloc[:, 0]] of a frame without columns. *)
Inductive IndexError : Type := positional_indexer_out_of_bounds.

(** Lines 62-68, given the target, the candidates and the address of the
    default list: the address of the selection and the p-values of the
    final model. *)
Definition script_body (OLS : column → DataFrame → option (nat → float))
    `{SetOrder} (data X : DataFrame) (y : column) (default_list : loc)
    (fuel : nat) : M (loc * Series) :=
  selected_feature ←
    stepwise_selection X y OLS lit_0_01 lit_0_05 true default_list fuel;
  names ← list_get selected_feature;
  best_X ← lift (getitem data names);
  pvalues ← sm_OLS_fit_pvalues y OLS best_X;
  mret (selected_feature, pvalues).

(** The module from the [def] on line 5 to the fit on line 68. *)
Definition script (OLS : column → DataFrame → option (nat → float))
    `{SetOrder} (data : DataFrame) (fuel : nat) (s : state)
    : (IndexError + result (loc * Series)) * state :=
  let default_list := length (heap s) in
  let s0 := (def_stepwise_selection s).2 in
  let data := fillna_ffill data in
  match data with
  | [] => (inl positional_indexer_out_of_bounds, s0)
  | target :: X =>
      let run := script_body OLS data X target.2 default_list fuel s0 in
      (inr run.1, run.2)
  end.

(** * Properties *)

(** ** Order facts about float comparison *)

Lemma lt_nan_r x : lt x nan = false.
Proof. by destruct x. Qed.

Lemma lt_isnan x z : lt x z = true → isnan x = false ∧ isnan z = false.
Proof. by destruct x, z. Qed.

Lemma lt_asym x z : lt x z = true → lt z x = false.
Proof.
  unfold lt, SFltb.
  destruct x as [[]|[]| |[] mx ex], z as [[]|[]| |[] mz ez]; simpl; try done.
  all: change (Pos.compare_cont Eq) with Pos.compare.
  all: destruct (Z.compare_spec ex ez), (Z.compare_spec ez ex);
    try lia; simpl; try done.
  all: destruct (Pos.compare_spec mx mz), (Pos.compare_spec mz mx);
    try lia; simpl; done.
Qed.

(** Whatever lies below [z] lies below any number [w] or has [w] below
    [z]. *)
Lemma lt_cotrans x w z :
  lt x z = true → isnan w = false → lt x w = true ∨ lt w z = true.
Proof.
  unfold lt, SFltb.
  destruct x as [[]|[]| |[] mx ex], w as [[]|[]| |[] mw ew],
    z as [[]|[]| |[] mz ez]; simpl; try done; try (by auto); intros Hxz _.
  all: change (Pos.compare_cont Eq) with Pos.compare in *.
  all: revert Hxz.
  all: destruct (Z.compare_spec ex ew), (Z.compare_spec ew ez),
    (Z.compare_spec ex ez); try lia; simpl; try done; try (by auto).
  all: destruct (Pos.compare_spec mx mw), (Pos.compare_spec mw mz),
    (Pos.compare_spec mx mz); try lia; simpl; try done; try (by auto).
Qed.

(** ** The NaN-skipping scan *)

Section nan_extremum.

Context (beats : float → float → bool).
Context (beats_asym : ∀ u v, beats u v = true → beats v u = false).
Context (beats_cotrans : ∀ u w v,
  beats u v = true → isnan w = false → beats u w = true ∨ beats w v = true).

Lemma nan_extremum_lookup vals i m :
  nan_extremum beats vals = Some (i, m) →
  vals !! i = Some m ∧ isnan m = false.
Proof using Type.
  revert i m. induction vals as [|v vals IH]; intros i m; simpl; [done|].
  destruct (nan_extremum beats vals) as [[j m']|] eqn:E; simpl.
  - destruct (IH j m' eq_refl) as [Hj Hm'].
    destruct (isnan v) eqn:Hv; [|destruct (beats m' v)];
      intros [= <- <-]; auto.
  - destruct (isnan v) eqn:Hv; [done|]. intros [= <- <-]; auto.
Qed.

Lemma nan_extremum_unbeaten vals i m v :
  nan_extremum beats vals = Some (i, m) →
  v ∈ vals → isnan v = false → beats v m = false.
Proof using beats_asym beats_cotrans.
  revert i m. induction vals as [|u vals IH]; intros i m; simpl.
  { by intros _ ?%elem_of_nil. }
  intros Hext Hin Hv.
  destruct (nan_extremum beats vals) as [[j m']|] eqn:E; simpl in Hext.
  - destruct (nan_extremum_lookup _ _ _ E) as [_ Hm'].
    assert (Htail : v ∈ vals → beats v m' = false) by (intros; by eapply IH).
    destruct (isnan u) eqn:Hu.
    + injection Hext as <- <-. apply elem_of_cons in Hin as [->|Hin];
        [congruence | auto].
    + destruct (beats m' u) eqn:Hb; injection Hext as <- <-.
      * apply elem_of_cons in Hin as [->|Hin]; auto.
      * apply elem_of_cons in Hin as [->|Hin].
        -- destruct (beats u u) eqn:Huu; [|done].
           by rewrite (beats_asym _ _ Huu) in Huu.
        -- destruct (beats v u) eqn:Hvu; [|done].
           destruct (beats_cotrans _ m' _ Hvu Hm') as [?|?];
             [rewrite Htail in *; done | congruence].
  - destruct (isnan u) eqn:Hu; [done|]. injection Hext as <- <-.
    apply elem_of_cons in Hin as [->|Hin].
    + destruct (beats u u) eqn:Huu; [|done].
      by rewrite (beats_asym _ _ Huu) in Huu.
    + exfalso. clear IH. induction vals as [|w vals IHv]; simpl in *.
      { by apply elem_of_nil in Hin. }
      destruct (nan_extremum beats vals) as [[? ?]|]; simpl in *.
      { by destruct (isnan w); [|destruct (beats _ _)]. }
      destruct (isnan w) eqn:Hw; [|done].
      apply elem_of_cons in Hin as [->|Hin]; [congruence | auto].
Qed.

Lemma nan_extremum_None vals v :
  nan_extremum beats vals = None → v ∈ vals → isnan v = true.
Proof using Type.
  induction vals as [|w vals IH]; simpl; [by intros _ ?%elem_of_nil|].
  destruct (nan_extremum beats vals) as [[? ?]|]; simpl.
  { by destruct (isnan w); [|destruct (beats _ _)]. }
  destruct (isnan w) eqn:Hw; [|done].
  intros _ [->|Hin]%elem_of_cons; auto.
Qed.

(** First occurrence: no earlier entry is as good as the one chosen. *)
Lemma nan_extremum_first vals i m j v :
  nan_extremum beats vals = Some (i, m) →
  vals !! j = Some v → j < i → isnan v = false → beats m v = true.
Proof using Type.
  revert i m j. induction vals as [|u vals IH]; intros i m j; simpl; [done|].
  destruct (nan_extremum beats vals) as [[k m']|] eqn:E; simpl.
  - destruct (isnan u) eqn:Hu; [|destruct (beats m' u) eqn:Hb];
      intros [= <- <-] Hj Hlt Hv; try lia.
    + destruct j as [|j]; simpl in Hj; [congruence|].
      eapply IH; eauto with lia.
    + destruct j as [|j]; simpl in Hj; [congruence|].
      eapply IH; eauto with lia.
  - destruct (isnan u); [done|]. intros [= <- <-]. lia.
Qed.

Context (beats_nan : ∀ u v, beats u v = true → isnan u = false).

(** If the extremum does not beat a threshold, no entry does. *)
Lemma nan_extremum_threshold vals t v :
  beats (from_option snd nan (nan_extremum beats vals)) t = false →
  v ∈ vals → beats v t = false.
Proof using beats_asym beats_cotrans beats_nan.
  intros Ht Hin. destruct (beats v t) eqn:Hvt; [|done].
  pose proof (beats_nan _ _ Hvt) as Hv.
  destruct (nan_extremum beats vals) as [[i m]|] eqn:E; simpl in Ht.
  - destruct (nan_extremum_lookup _ _ _ E) as [_ Hm].
    destruct (beats_cotrans _ m _ Hvt Hm) as [Hvm|Hmt]; [|congruence].
    by rewrite (nan_extremum_unbeaten _ _ _ _ E Hin Hv) in Hvm.
  - by rewrite (nan_extremum_None _ _ E Hin) in Hv.
Qed.

(** If the extremum beats a threshold, it is an entry and no entry beats
    it. *)
Lemma nan_extremum_beats vals t :
  beats (from_option snd nan (nan_extremum beats vals)) t = true →
  ∃ i m, nan_extremum beats vals = Some (i, m) ∧ vals !! i = Some m ∧
    ∀ v, v ∈ vals → beats v m = false.
Proof using beats_asym beats_cotrans beats_nan.
  destruct (nan_extremum beats vals) as [[i m]|] eqn:E; simpl.
  - intros _. exists i, m. destruct (nan_extremum_lookup _ _ _ E).
    repeat split; [done|]. intros v Hin.
    destruct (beats v m) eqn:Hvm; [|done].
    by rewrite (nan_extremum_unbeaten _ _ _ _ E Hin (beats_nan _ _ Hvm))
      in Hvm.
  - intros Hn. by apply beats_nan in Hn.
Qed.

End nan_extremum.

Lemma gt_asym u v : gt u v = true → gt v u = false.
Proof. apply lt_asym. Qed.

Lemma gt_cotrans u w v :
  gt u v = true → isnan w = false → gt u w = true ∨ gt w v = true.
Proof.
  unfold gt. intros Hvu Hw. destruct (lt_cotrans _ w _ Hvu Hw); auto.
Qed.

Lemma lt_nan u v : lt u v = true → isnan u = false.
Proof. intros Hl. by apply lt_isnan in Hl as [? ?]. Qed.

Lemma gt_nan u v : gt u v = true → isnan u = false.
Proof. intros Hl. by apply lt_isnan in Hl as [? ?]. Qed.

(** ** Series reductions *)

Lemma Series_lookup_fmap (s : Series) i v :
  s.*2 !! i = Some v → ∃ f, s !! i = Some (f, v) ∧ s.*1 !! i = Some f.
Proof.
  intros ([f q] & [= <-] & Hs)%list_lookup_fmap_Some_1. exists f.
  split; [done|]. by rewrite list_lookup_fmap, Hs.
Qed.

Lemma Series_min_below (s : Series) t :
  lt (Series_min s) t = true →
  ∃ i f, s !! i = Some (f, Series_min s) ∧
    index_at s (Series_argmin s) = Val f ∧
    ∀ g q, (g, q) ∈ s → lt q (Series_min s) = false.
Proof.
  intros Ht. unfold Series_min, Series_argmin, index_at in *.
  destruct (nan_extremum_beats lt lt_asym lt_cotrans lt_nan _ _ Ht)
    as (i & m & E & Hi & Hmin).
  rewrite E; simpl. destruct (Series_lookup_fmap _ _ _ Hi) as (f & Hf & Hl).
  exists i, f. rewrite Hl. repeat split; [done|].
  intros g q Hin. apply Hmin. by apply (list_elem_of_fmap_2 snd) in Hin.
Qed.

Lemma Series_min_not_below (s : Series) t g q :
  lt (Series_min s) t = false → (g, q) ∈ s → lt q t = false.
Proof.
  intros Ht Hin.
  apply (nan_extremum_threshold lt lt_asym lt_cotrans lt_nan s.*2); [done|].
  by apply (list_elem_of_fmap_2 snd) in Hin.
Qed.

Lemma Series_max_above (s : Series) t :
  gt (Series_max s) t = true →
  ∃ i f, s !! i = Some (f, Series_max s) ∧
    index_at s (Series_argmax s) = Val f ∧
    ∀ g q, (g, q) ∈ s → gt q (Series_max s) = false.
Proof.
  intros Ht. unfold Series_max, Series_argmax, index_at in *.
  destruct (nan_extremum_beats gt gt_asym gt_cotrans gt_nan _ _ Ht)
    as (i & m & E & Hi & Hmax).
  rewrite E; simpl. destruct (Series_lookup_fmap _ _ _ Hi) as (f & Hf & Hl).
  exists i, f. rewrite Hl. repeat split; [done|].
  intros g q Hin. apply Hmax. by apply (list_elem_of_fmap_2 snd) in Hin.
Qed.

Lemma Series_max_not_above (s : Series) t g q :
  gt (Series_max s) t = false → (g, q) ∈ s → gt q t = false.
Proof.
  intros Ht Hin.
  apply (nan_extremum_threshold gt gt_asym gt_cotrans gt_nan s.*2); [done|].
  by apply (list_elem_of_fmap_2 snd) in Hin.
Qed.

(** ** The store-level definitions compute the value-level ones *)

Section runs.

Context (X : DataFrame) (y : column).
Context (OLS : column → DataFrame → option (nat → float)).
Context `{SetOrder}.
Context (threshold_in threshold_out : float) (verbose : bool).

Abbreviation forward_step := (forward_step X y OLS threshold_in verbose).
Abbreviation backward_step := (backward_step X y OLS threshold_out verbose).
Abbreviation while_True :=
  (while_True X y OLS threshold_in threshold_out verbose).
Abbreviation stepwise_selection :=
  (stepwise_selection X y OLS threshold_in threshold_out verbose).
Abbreviation forward_val := (forward_val X y OLS threshold_in verbose).
Abbreviation backward_val := (backward_val X y OLS threshold_out verbose).
Abbreviation while_val := (while_val X y OLS threshold_in threshold_out verbose).
Abbreviation scan_val := (scan_val X y OLS).
Abbreviation candidate_pvalue := (candidate_pvalue X y OLS).
Abbreviation candidate_events := (candidate_events X).
Abbreviation excluded_of := (excluded_of X).

Lemma after_same s a cur evs :
  heap s !! a = Some cur →
  after s a cur evs = State (heap s) (trace s ++ evs).
Proof. intros Ha. unfold after. by rewrite list_insert_id. Qed.

Lemma after_nil s a cur : heap s !! a = Some cur → after s a cur [] = s.
Proof.
  intros Ha. rewrite (after_same _ _ _ _ Ha), app_nil_r. by destruct s.
Qed.

Lemma after_after s a cur1 evs1 cur2 evs2 :
  after (after s a cur1 evs1) a cur2 evs2 = after s a cur2 (evs1 ++ evs2).
Proof.
  unfold after; simpl. by rewrite list_insert_insert_eq, app_assoc.
Qed.

Lemma heap_after s a cur cur' evs :
  heap s !! a = Some cur → heap (after s a cur' evs) !! a = Some cur'.
Proof.
  intros Ha. simpl. apply list_lookup_insert_eq. by eapply lookup_lt_Some.
Qed.

Lemma bind_run {A B} (m : M A) (f : A → M B) s :
  (m ≫= f) s =
    match m s with
    | (Val x, s') => f x s'
    | (Exn e, s') => (Exn e, s')
    | (OutOfFuel, s') => (OutOfFuel, s')
    end.
Proof. reflexivity. Qed.

Lemma list_get_run a cur s :
  heap s !! a = Some cur → list_get a s = (Val cur, s).
Proof. intros Ha. unfold list_get. by rewrite Ha. Qed.

Lemma sm_OLS_fit_pvalues_run exog s :
  sm_OLS_fit_pvalues y OLS exog s =
    (match OLS y exog with
     | Some p => Val (pvalues_of exog p)
     | None => Exn FitError
     end, State (heap s) (trace s ++ [OLS_fit exog])).
Proof.
  unfold sm_OLS_fit_pvalues. rewrite bind_run. unfold log.
  by destruct (OLS y exog).
Qed.

Lemma for_in_run a cur cs acc s :
  heap s !! a = Some cur →
  for_in cs (λ new_pval new_column,
      cur ← list_get a;
      exog ← lift (getitem X (cur ++ [new_column]));
      pvalues ← sm_OLS_fit_pvalues y OLS exog;
      p ← lift (Series_getitem pvalues new_column);
      mret (Series_setitem new_pval new_column p)) acc s
  = ((scan_val cur cs acc).2, after s a cur (scan_val cur cs acc).1).
Proof.
  revert acc s. induction cs as [|c cs IH]; intros acc s Ha.
  { simpl. by rewrite (after_nil _ _ _ Ha). }
  rewrite (after_same _ _ _ _ Ha).
  cbn [for_in scan_val]. unfold candidate_pvalue, candidate_events.
  rewrite bind_run, bind_run, (list_get_run _ _ _ Ha), bind_run. unfold lift at 1.
  destruct (getitem X (cur ++ [c])) as [exog| |] eqn:Hexog;
    cbn [mbind result_bind]; [|by rewrite app_nil_r; destruct s..].
  rewrite bind_run, sm_OLS_fit_pvalues_run.
  destruct (OLS y exog) as [p|] eqn:Hp;
    cbn [from_option mbind result_bind]; [|done].
  rewrite bind_run. unfold lift at 1.
  destruct (Series_getitem (pvalues_of exog p) c) as [v| |] eqn:Hv;
    [|done..].
  unfold mret at 1, M_ret at 1.
  rewrite IH by done. rewrite (after_same _ _ cur) by done.
  cbn [fst snd heap trace]. by rewrite <- app_assoc.
Qed.

Lemma append_run a cur x s :
  heap s !! a = Some cur →
  append a x s = (Val tt, after s a (cur ++ [x]) [list_append x]).
Proof. intros Ha. unfold append. by rewrite Ha. Qed.

Lemma remove_run a cur x s :
  heap s !! a = Some cur →
  remove a x s =
    match remove_first x cur with
    | Some cur' => (Val tt, after s a cur' [list_remove x])
    | None => (Exn ValueError, s)
    end.
Proof. intros Ha. unfold remove. by rewrite Ha. Qed.

Lemma forward_step_run a cur s :
  heap s !! a = Some cur →
  forward_step a s =
    let '(evs, cur', r) := forward_val cur in (r, after s a cur' evs).
Proof.
  intros Ha. unfold forward_step, forward_val.
  rewrite bind_run, (list_get_run _ _ _ Ha), bind_run.
  fold (excluded_of cur). rewrite (for_in_run _ _ _ _ _ Ha).
  destruct (scan_val cur (excluded_of cur) (Series_new (excluded_of cur)))
    as [evs [new_pval|e|]]; cbn [fst snd stop]; [|done..].
  destruct (lt (Series_min new_pval) threshold_in);
    [|by unfold mret, M_ret].
  rewrite bind_run. unfold lift at 1.
  destruct (index_at new_pval (Series_argmin new_pval)) as [f| |];
    cbn [stop]; [|done..].
  rewrite bind_run, (append_run _ cur) by by eapply heap_after.
  rewrite after_after, bind_run.
  destruct verbose; unfold log, mret, M_ret, after; simpl;
    by rewrite <- ?app_assoc, ?list_insert_insert_eq.
Qed.

Lemma backward_step_run a cur changed s :
  heap s !! a = Some cur →
  backward_step a changed s =
    let '(evs, cur', r) := backward_val cur changed in
    (r, after s a cur' evs).
Proof.
  intros Ha. unfold backward_step, backward_val.
  rewrite bind_run, (list_get_run _ _ _ Ha), bind_run. unfold lift at 1.
  destruct (getitem X cur) as [exog| |]; cbn [stop];
    [|by rewrite (after_nil _ _ _ Ha)..].
  rewrite bind_run, sm_OLS_fit_pvalues_run.
  fold (after s a cur [OLS_fit exog]).
  destruct (OLS y exog) as [p|];
    [|by rewrite (after_same _ _ _ _ Ha)].
  destruct (gt (Series_max (pvalues_of exog p)) threshold_out);
    [|by unfold mret, M_ret; rewrite (after_same _ _ _ _ Ha)].
  rewrite bind_run. unfold lift at 1.
  destruct (index_at _ _) as [f| |]; cbn [stop];
    [|by rewrite (after_same _ _ _ _ Ha)..].
  rewrite bind_run, (remove_run _ cur) by done.
  destruct (remove_first f cur) as [cur'|];
    [|by rewrite (after_same _ _ _ _ Ha)].
  rewrite bind_run.
  destruct verbose; unfold log, mret, M_ret, after; simpl;
    by rewrite <- ?app_assoc.
Qed.

Lemma while_True_run fuel a cur s :
  heap s !! a = Some cur →
  while_True fuel a s =
    let '(evs, cur', r) := while_val fuel cur in (r, after s a cur' evs).
Proof.
  revert cur s. induction fuel as [|fuel IH]; intros cur s Ha.
  { simpl. by rewrite (after_nil _ _ _ Ha). }
  cbn [while_True while_val].
  rewrite bind_run, (forward_step_run _ _ _ Ha).
  destruct (forward_val cur) as [[evs1 cur1] [changed1| |]];
    cbn [stop]; [|done..].
  rewrite bind_run, (backward_step_run _ cur1) by by eapply heap_after.
  destruct (backward_val cur1 changed1) as [[evs2 cur2] [changed2| |]];
    cbn [stop]; rewrite after_after; [|done..].
  destruct changed2; cbn [negb]; [|done].
  rewrite (IH cur2) by by eapply heap_after.
  destruct (while_val fuel cur2) as [[evs3 cur3] r3].
  by rewrite after_after, <- app_assoc.
Qed.

(** The whole call: the list at [initial_list] is copied to a fresh
    address, the loop runs there, and that address is returned. *)
Lemma stepwise_selection_run initial_list fuel s :
  stepwise_selection initial_list fuel s =
    let '(evs, cur', r) :=
      while_val fuel (default [] (heap s !! initial_list)) in
    (r ≫= λ _, Val (length (heap s)),
     State (heap s ++ [cur']) (trace s ++ evs)).
Proof.
  unfold stepwise_selection. rewrite bind_run. unfold list_copy.
  rewrite bind_run.
  rewrite (while_True_run _ _ (default [] (heap s !! initial_list)))
    by (cbn [heap]; by rewrite lookup_app_r, Nat.sub_diag).
  destruct (while_val fuel _) as [[evs cur'] r].
  unfold after; cbn [heap trace].
  rewrite insert_app_r_alt, Nat.sub_diag by done.
  by destruct r.
Qed.

Lemma stepwise_selection_run_at initial_list initial fuel s :
  heap s !! initial_list = Some initial →
  stepwise_selection initial_list fuel s =
    let '(evs, cur', r) := while_val fuel initial in
    (r ≫= λ _, Val (length (heap s)),
     State (heap s ++ [cur']) (trace s ++ evs)).
Proof. intros Ha. by rewrite stepwise_selection_run, Ha. Qed.

Lemma lookup_fresh (h : list (list name)) l : (h ++ [l]) !! length h = Some l.
Proof. by rewrite lookup_app_r, Nat.sub_diag. Qed.

(** *** The forward loop *)

Lemma elem_of_excluded_of cur c :
  c ∈ excluded_of cur ↔ c ∈ columns X ∧ c ∉ cur.
Proof.
  unfold excluded_of.
  by rewrite elem_of_list_of_set, elem_of_difference, !elem_of_list_to_set.
Qed.

Lemma Series_setitem_index (acc : Series) c v :
  c ∈ acc.*1 → (Series_setitem acc c v).*1 = acc.*1.
Proof.
  intros Hc. unfold Series_setitem. rewrite decide_True by done.
  rewrite <- list_fmap_compose. apply list_fmap_ext.
  intros i [k q] _; simpl. by destruct (decide (k = c)).
Qed.

Lemma Series_setitem_lookup (acc : Series) c v i k q :
  c ∈ acc.*1 →
  Series_setitem acc c v !! i = Some (k, q) →
  (k = c ∧ q = v) ∨ (k ≠ c ∧ acc !! i = Some (k, q)).
Proof.
  intros Hc. unfold Series_setitem. rewrite decide_True by done.
  intros ([k' q'] & Heq & Hi)%list_lookup_fmap_Some_1. simpl in Heq.
  destruct (decide (k' = c)); simplify_eq; auto.
Qed.

(** A completed loop leaves, at every label it visited, the p-value of
    that candidate, and has called the fit once per candidate. *)
Lemma scan_val_Val cur cs acc evs new_pval :
  scan_val cur cs acc = (evs, Val new_pval) →
  (∀ c, c ∈ cs → c ∈ acc.*1) →
  new_pval.*1 = acc.*1 ∧
  evs = (cs ≫= candidate_events cur) ∧
  ∀ i c v, new_pval !! i = Some (c, v) →
    (c ∈ cs ∧ candidate_pvalue cur c = Val v) ∨
    ((c ∉ cs) ∧ acc !! i = Some (c, v)).
Proof.
  revert acc evs. induction cs as [|c cs IH]; intros acc evs; simpl.
  { intros [= <- <-] _. split_and!; [done..|].
    intros i c v Hi. right. split; [apply not_elem_of_nil | done]. }
  destruct (candidate_pvalue cur c) as [p| |] eqn:Hp; [|done..].
  destruct (scan_val cur cs (Series_setitem acc c p)) as [evs' r] eqn:Hs.
  simpl. intros [= <- ->] Hidx.
  assert (Hc : c ∈ acc.*1) by (apply Hidx; left).
  destruct (IH _ _ Hs) as (Hi & -> & Hv).
  { intros c' Hc'. rewrite Series_setitem_index by done.
    apply Hidx. by right. }
  rewrite Series_setitem_index in Hi by done. split_and!; [done..|].
  intros i c' v Hl. destruct (Hv _ _ _ Hl) as [[? ?]|[Hn Hacc]].
  { left. split; [by right | done]. }
  apply Series_setitem_lookup in Hacc as [[-> ->]|[? ?]]; [| |done].
  - left. split; [by left | done].
  - right. split; [|done]. by intros [?|?]%elem_of_cons.
Qed.

Lemma Series_new_index idx : (Series_new idx).*1 = idx.
Proof.
  unfold Series_new. rewrite <- list_fmap_compose. apply list_fmap_id.
Qed.

(** Every entry of the finished [new_pval] is a candidate with its
    p-value, and every candidate has an entry. *)
Lemma scan_val_new cur evs new_pval :
  scan_val cur (excluded_of cur) (Series_new (excluded_of cur))
    = (evs, Val new_pval) →
  new_pval.*1 = excluded_of cur ∧
  evs = (excluded_of cur ≫= candidate_events cur) ∧
  ∀ c v, (c, v) ∈ new_pval → candidate_pvalue cur c = Val v.
Proof.
  intros Hs. apply scan_val_Val in Hs as (Hi & He & Hv).
  - rewrite Series_new_index in Hi. split_and!; [done..|].
    intros c v (i & Hl)%list_elem_of_lookup_1.
    destruct (Hv _ _ _ Hl) as [[_ ?]|[Hn _]]; [done|].
    destruct Hn. rewrite <- Hi. apply list_elem_of_lookup_2 in Hl.
    by apply (list_elem_of_fmap_2 fst) in Hl.
  - intros c Hc. by rewrite Series_new_index.
Qed.

(** A loop that stops early stops at a candidate whose fit failed; the
    fits called are those of the candidates up to that one. *)
Lemma scan_val_events cur cs acc :
  ∃ k, (scan_val cur cs acc).1 = (take k cs ≫= candidate_events cur).
Proof.
  revert acc. induction cs as [|c cs IH]; intros acc; simpl.
  { by exists 0. }
  destruct (candidate_pvalue cur c) as [p| |]; simpl.
  - destruct (IH (Series_setitem acc c p)) as [k ->]. by exists (S k).
  - exists 1. simpl. by rewrite app_nil_r.
  - exists 1. simpl. by rewrite app_nil_r.
Qed.

Lemma scan_val_Exn cur cs acc evs e :
  scan_val cur cs acc = (evs, Exn e) →
  ∃ c, c ∈ cs ∧ candidate_pvalue cur c = Exn e.
Proof.
  revert acc evs. induction cs as [|c cs IH]; intros acc evs; simpl;
    [done|].
  destruct (candidate_pvalue cur c) as [p| |] eqn:Hp.
  - destruct (scan_val cur cs _) as [evs' r] eqn:Hs. simpl.
    intros [= <- ->]. destruct (IH _ _ Hs) as (c' & ? & ?).
    exists c'. split; [by right | done].
  - intros [= <- <-]. exists c. split; [by left | done].
  - done.
Qed.

(** *** Column selection and the p-value series *)

Lemma getitem_Val cols exog :
  getitem X cols = Val exog →
  (∀ k v, (k, v) ∈ exog → (k, v) ∈ X ∧ k ∈ cols) ∧
  (∀ k, k ∈ cols → k ∈ exog.*1).
Proof.
  revert exog. induction cols as [|c cols IH]; intros exog; simpl.
  { intros [= <-]. split; [by intros k v ?%elem_of_nil|].
    by intros k ?%elem_of_nil. }
  destruct (filter (λ kv, kv.1 = c) X) as [|kv sel] eqn:Hf; [done|].
  destruct (getitem X cols) as [rest| |]; simpl; [|done..].
  intros [= <-]. destruct (IH _ eq_refl) as [IH1 IH2].
  rewrite app_comm_cons, <- Hf. split.
  - intros k v [Hin|Hin]%elem_of_app.
    + apply list_elem_of_filter in Hin as [Hk ?].
      simpl in Hk. subst k. split; [done | by left].
    + destruct (IH1 _ _ Hin). split; [done | by right].
  - intros k [->|Hin]%elem_of_cons.
    + assert (Hkv : kv ∈ filter (λ kv, kv.1 = c) X) by (rewrite Hf; left).
      pose proof Hkv as [<- _]%list_elem_of_filter.
      rewrite fmap_app. apply elem_of_app. left.
      by apply (list_elem_of_fmap_2 fst).
    + rewrite fmap_app. apply elem_of_app. right. by apply IH2.
Qed.

Lemma getitem_Exn cols e :
  getitem X cols = Exn e → ∃ k, e = KeyError k ∧ k ∈ cols ∧ k ∉ columns X.
Proof.
  induction cols as [|c cols IH]; simpl; [done|].
  destruct (filter (λ kv, kv.1 = c) X) as [|kv sel] eqn:Hf.
  - intros [= <-]. exists c. split_and!; [done | by left |].
    intros ([k v] & Hk & Hin)%list_elem_of_fmap. simpl in Hk. subst k.
    assert (Hkv : (c, v) ∈ filter (λ kv, kv.1 = c) X)
      by by apply list_elem_of_filter.
    rewrite Hf in Hkv. by apply elem_of_nil in Hkv.
  - destruct (getitem X cols) as [rest| |]; simpl; [done| |done].
    intros [= <-]. destruct (IH eq_refl) as (k & ? & ? & ?).
    exists k. split_and!; [done | by right | done].
Qed.

Lemma getitem_fuel cols : getitem X cols ≠ OutOfFuel.
Proof.
  induction cols as [|c cols IH]; simpl; [done|].
  destruct (filter (λ kv, kv.1 = c) X); [done|].
  by destruct (getitem X cols).
Qed.

Lemma pvalues_of_index exog p : (pvalues_of exog p).*1 = exog.*1.
Proof.
  unfold pvalues_of. revert p.
  induction exog as [|kv exog IH]; intros p; simpl; [done|].
  f_equal. apply (IH (p ∘ S)).
Qed.

Lemma pvalues_of_lookup exog p i f q :
  pvalues_of exog p !! i = Some (f, q) ↔
  ∃ col, exog !! i = Some (f, col) ∧ q = p i.
Proof.
  unfold pvalues_of. rewrite list_lookup_imap_Some. split.
  - intros ([k col] & Hi & Heq). simpl in Heq. injection Heq as -> ->.
    eauto.
  - intros (col & Hi & ->). by exists (f, col).
Qed.

(** *** Removing the first occurrence *)

Lemma remove_first_Some x l l' :
  remove_first x l = Some l' →
  ∃ l1 l2, l = l1 ++ x :: l2 ∧ l' = l1 ++ l2 ∧ x ∉ l1.
Proof.
  revert l'. induction l as [|z l IH]; intros l'; simpl; [done|].
  destruct (decide (z = x)) as [->|Hne].
  - intros [= <-]. exists [], l. split_and!; [done..|apply not_elem_of_nil].
  - destruct (remove_first x l) as [l0|]; simpl; [|done].
    intros [= <-]. destruct (IH _ eq_refl) as (l1 & l2 & -> & -> & Hn).
    exists (z :: l1), l2. split_and!; [done..|].
    by intros [?|?]%elem_of_cons.
Qed.

Lemma remove_first_elem_of x l : x ∈ l → is_Some (remove_first x l).
Proof.
  induction l as [|z l IH]; simpl; [by intros ?%elem_of_nil|].
  destruct (decide (z = x)); [by eauto|].
  intros [?|Hin]%elem_of_cons; [done|].
  destruct (IH Hin) as [l' ->]. by eauto.
Qed.

Lemma remove_first_sublist x l l' :
  remove_first x l = Some l' → l' `sublist_of` l.
Proof.
  intros (l1 & l2 & -> & -> & _)%remove_first_Some.
  apply sublist_app; [done|]. by apply sublist_cons.
Qed.

Lemma remove_first_app x l1 l2 :
  remove_first x (l1 ++ l2) =
    match remove_first x l1 with
    | Some l1' => Some (l1' ++ l2)
    | None => (l1 ++.) <$> remove_first x l2
    end.
Proof.
  induction l1 as [|z l1 IH]; simpl.
  { by destruct (remove_first x l2). }
  destruct (decide (z = x)); [done|]. rewrite IH.
  destruct (remove_first x l1); simpl; [done|].
  by destruct (remove_first x l2).
Qed.

(** *** Traces *)

Lemma replay_app evs1 evs2 l :
  replay (evs1 ++ evs2) l = replay evs1 l ≫= replay evs2.
Proof.
  revert l. induction evs1 as [|[] evs1 IH]; intros l; simpl; auto.
  destruct (remove_first x l); simpl; auto.
Qed.

Lemma appended_app evs1 evs2 :
  appended (evs1 ++ evs2) = appended evs1 ++ appended evs2.
Proof. apply omap_app. Qed.

Lemma candidate_events_fits cur cs ev :
  ev ∈ cs ≫= candidate_events cur →
  ∃ c exog, c ∈ cs ∧ ev = OLS_fit exog ∧
    getitem X (cur ++ [c]) = Val exog.
Proof.
  intros (c & Hev & Hc)%list_elem_of_bind. unfold candidate_events in Hev.
  destruct (getitem X (cur ++ [c])) as [exog| |] eqn:Hg;
    try by apply elem_of_nil in Hev.
  apply list_elem_of_singleton in Hev. eauto.
Qed.

(** *** One forward step *)

Abbreviation forward_spec := (forward_spec X y OLS threshold_in verbose).
Abbreviation backward_spec := (backward_spec X y OLS threshold_out verbose).

Lemma Series_getitem_fuel (s : Series) c : Series_getitem s c ≠ OutOfFuel.
Proof.
  unfold Series_getitem.
  by destruct (filter (λ kv, kv.1 = c) s) as [|? [|? ?]].
Qed.

Lemma candidate_pvalue_fuel cur c : candidate_pvalue cur c ≠ OutOfFuel.
Proof.
  unfold candidate_pvalue.
  destruct (getitem X (cur ++ [c])) as [exog| |] eqn:Hg; simpl; [|done|].
  - destruct (OLS y exog); simpl; [apply Series_getitem_fuel | done].
  - by apply getitem_fuel in Hg.
Qed.

Lemma scan_val_fuel cur cs acc : (scan_val cur cs acc).2 ≠ OutOfFuel.
Proof.
  revert acc. induction cs as [|c cs IH]; intros acc; simpl; [done|].
  destruct (candidate_pvalue cur c) as [p| |] eqn:Hp; simpl; [done..|].
  by apply candidate_pvalue_fuel in Hp.
Qed.

Lemma forward_val_spec cur : forward_spec cur (forward_val cur).
Proof.
  unfold forward_val.
  destruct (scan_val cur (excluded_of cur) (Series_new (excluded_of cur)))
    as [evs r] eqn:Hs.
  pose proof (scan_val_fuel cur (excluded_of cur)
    (Series_new (excluded_of cur))) as Hfuel.
  pose proof (scan_val_events cur (excluded_of cur)
    (Series_new (excluded_of cur))) as [k Hk].
  rewrite Hs in Hfuel, Hk. cbn [fst snd] in *.
  destruct r as [new_pval|e|]; [| |done].
  - destruct (scan_val_new _ _ _ Hs) as (Hidx & -> & Hv).
    assert (Hall : ∀ c, c ∈ columns X → c ∉ cur →
      ∃ v, (c, v) ∈ new_pval ∧ candidate_pvalue cur c = Val v).
    { intros c Hc Hn.
      assert (Hin : c ∈ new_pval.*1)
        by (rewrite Hidx; by apply elem_of_excluded_of).
      apply list_elem_of_fmap in Hin as ([c' v] & -> & Hin). eauto. }
    destruct (lt (Series_min new_pval) threshold_in) eqn:Hlt.
    + destruct (Series_min_below _ _ Hlt) as (i & f & Hi & -> & Hmin).
      apply list_elem_of_lookup_2 in Hi.
      assert (Hf : f ∈ excluded_of cur).
      { rewrite <- Hidx. by apply (list_elem_of_fmap_2 fst) in Hi. }
      apply elem_of_excluded_of in Hf as [? ?].
      apply forward_add; auto.
      intros c q Hc Hn Hq. destruct (Hall c Hc Hn) as (v & Hin & Hv').
      rewrite Hq in Hv'. injection Hv' as <-. eauto.
    + apply forward_keep. intros c Hc Hn.
      destruct (Hall c Hc Hn) as (v & Hin & Hv'). exists v.
      split; [done|]. by eapply Series_min_not_below.
  - cbn [stop]. rewrite Hk.
    destruct (scan_val_Exn _ _ _ _ _ Hs) as (c & [? ?]%elem_of_excluded_of & ?).
    by eapply forward_fail.
Qed.

(** *** One backward step *)

Lemma backward_val_spec cur changed :
  backward_spec cur changed (backward_val cur changed).
Proof.
  unfold backward_val.
  destruct (getitem X cur) as [exog|e|] eqn:Hg; cbn [stop].
  - destruct (OLS y exog) as [p|] eqn:Hp; [|by apply backward_fail_fit].
    destruct (gt (Series_max (pvalues_of exog p)) threshold_out) eqn:Hgt.
    + destruct (Series_max_above _ _ Hgt) as (i & f & Hi & -> & Hmax).
      assert (Hf : is_Some (remove_first f cur)).
      { apply remove_first_elem_of.
        apply pvalues_of_lookup in Hi as (col & Hi & _).
        apply list_elem_of_lookup_2 in Hi.
        by apply (getitem_Val _ _ Hg) in Hi as [_ ?]. }
      destruct Hf as [cur' Hcur']. rewrite Hcur'.
      by eapply backward_drop.
    + eapply backward_keep; [done..|].
      intros g q Hin. by eapply Series_max_not_above.
  - destruct (getitem_Exn _ _ Hg) as (k & -> & ? & ?).
    by apply backward_fail_key.
  - by apply getitem_fuel in Hg.
Qed.

(** *** The loop *)

Lemma forward_val_false cur evs cur' :
  forward_val cur = (evs, cur', Val false) →
  cur' = cur ∧
  ∀ c, c ∈ columns X → c ∉ cur →
    ∃ q, candidate_pvalue cur c = Val q ∧ lt q threshold_in = false.
Proof.
  intros Hf. pose proof (forward_val_spec cur) as Hs. rewrite Hf in Hs.
  by inversion Hs.
Qed.

Lemma backward_val_false cur changed evs cur' :
  backward_val cur changed = (evs, cur', Val false) →
  cur' = cur ∧ changed = false ∧
  ∃ exog p, getitem X cur = Val exog ∧ OLS y exog = Some p ∧
    ∀ g q, (g, q) ∈ pvalues_of exog p → gt q threshold_out = false.
Proof.
  intros Hb. pose proof (backward_val_spec cur changed) as Hs.
  rewrite Hb in Hs. inversion Hs; subst. eauto 10.
Qed.

(** The pass that ends the loop changes nothing. *)
Lemma while_val_last_pass fuel cur evs ret :
  while_val fuel cur = (evs, ret, Val tt) →
  ∃ evs1 evs2,
    forward_val ret = (evs1, ret, Val false) ∧
    backward_val ret false = (evs2, ret, Val false).
Proof.
  revert cur evs. induction fuel as [|fuel IH]; intros cur evs; simpl;
    [done|].
  destruct (forward_val cur) as [[evs1 cur1] [changed1| |]] eqn:Hf;
    [|done..].
  destruct (backward_val cur1 changed1) as [[evs2 cur2] [changed2| |]]
    eqn:Hb; [|done..].
  destruct changed2; simpl.
  - destruct (while_val fuel cur2) as [[evs3 cur3] r3] eqn:Hw.
    intros [= <- <- ->]. by eapply IH.
  - intros [= <- <-].
    destruct (backward_val_false _ _ _ _ Hb) as (-> & -> & _).
    destruct (forward_val_false _ _ _ Hf) as (-> & _). eauto.
Qed.

Lemma candidate_pvalue_Val cur c q :
  candidate_pvalue cur c = Val q →
  ∃ exog p, getitem X (cur ++ [c]) = Val exog ∧ OLS y exog = Some p ∧
    Series_getitem (pvalues_of exog p) c = Val q.
Proof.
  unfold candidate_pvalue.
  destruct (getitem X (cur ++ [c])) as [exog| |] eqn:Hg; simpl; [|done..].
  destruct (OLS y exog) as [p|] eqn:Hp; simpl; [|done]. intros Hq.
  by exists exog, p.
Qed.

(** C1: when a call returns, the list it returns is a fixed point of the
    two steps.  The fit of [y] on exactly the returned columns has no
    p-value above [threshold_out], and for every column of [X] that is
    not in the list, the fit on the list with that column appended gives
    the column a p-value that is not below [threshold_in]. *)
Theorem C1_returned_list_is_fixed_point initial_list fuel s ret s' :
  stepwise_selection initial_list fuel s = (Val ret, s') →
  ∃ included, heap s' !! ret = Some included ∧
    fixed_point X y OLS threshold_in threshold_out included.
Proof.
  rewrite stepwise_selection_run.
  destruct (while_val fuel _) as [[evs included] [[]| |]] eqn:Hw;
    simpl; [|done..].
  intros [= <- <-]. exists included. cbn [heap].
  split; [apply lookup_fresh|].
  destruct (while_val_last_pass _ _ _ _ Hw) as (evs1 & evs2 & Hf & Hb).
  destruct (backward_val_false _ _ _ _ Hb) as (_ & _ & Hfit).
  destruct (forward_val_false _ _ _ Hf) as (_ & Hcand).
  split; [done|]. intros c Hc Hn.
  destruct (Hcand c Hc Hn) as (q & Hq & Hlt).
  destruct (candidate_pvalue_Val _ _ _ Hq) as (exog & p & ? & ? & ?).
  by exists exog, p, q.
Qed.

(** *** Invariants of the loop *)

(** What both steps preserve, the loop preserves; [R] may speak of the
    events so far and of the list they leave. *)
Lemma while_val_inv (R : list event → list name → Prop) :
  (∀ pre cur evs cur' r,
     R pre cur → forward_spec cur (evs, cur', r) → R (pre ++ evs) cur') →
  (∀ pre cur changed evs cur' r,
     R pre cur → backward_spec cur changed (evs, cur', r) →
     R (pre ++ evs) cur') →
  ∀ fuel pre cur evs cur' r,
    R pre cur → while_val fuel cur = (evs, cur', r) → R (pre ++ evs) cur'.
Proof.
  intros Hfwd Hbwd. induction fuel as [|fuel IH]; intros pre cur evs cur' r HR.
  { simpl. intros [= <- <- <-]. by rewrite app_nil_r. }
  cbn [while_val].
  pose proof (forward_val_spec cur) as Hf.
  destruct (forward_val cur) as [[evs1 cur1] r1].
  pose proof (Hfwd _ _ _ _ _ HR Hf) as HR1.
  destruct r1 as [changed1| |]; cbn [stop];
    [|by intros [= <- <- <-]..].
  pose proof (backward_val_spec cur1 changed1) as Hb.
  destruct (backward_val cur1 changed1) as [[evs2 cur2] r2].
  pose proof (Hbwd _ _ _ _ _ _ HR1 Hb) as HR2.
  rewrite <- app_assoc in HR2.
  destruct r2 as [changed2| |]; cbn [stop];
    [|by intros [= <- <- <-]..].
  destruct changed2; cbn [negb]; [|by intros [= <- <- <-]].
  destruct (while_val fuel cur2) as [[evs3 cur3] r3] eqn:Hw.
  intros [= <- <- <-]. rewrite !app_assoc, <- (app_assoc pre).
  by eapply IH.
Qed.

Lemma valid_forward cur evs cur' r :
  valid X cur → forward_spec cur (evs, cur', r) → valid X cur'.
Proof.
  intros [Hnd Hsub] Hs. inversion Hs; subst; [|done..]. split.
  - apply NoDup_app. split_and!; [done| |apply NoDup_singleton].
    intros k Hk Hf. by apply list_elem_of_singleton in Hf as ->.
  - intros k [?|Hk]%elem_of_app; [auto|].
    by apply list_elem_of_singleton in Hk as ->.
Qed.

Lemma valid_backward cur changed evs cur' r :
  valid X cur → backward_spec cur changed (evs, cur', r) → valid X cur'.
Proof.
  intros [Hnd Hsub] Hs. inversion Hs; subst; [|done..].
  match goal with Hr : remove_first _ _ = Some _ |- _ =>
    apply remove_first_sublist in Hr; rename Hr into Hsl end.
  split; [by eapply sublist_NoDup|].
  intros k Hk. apply Hsub. by eapply sublist_subseteq.
Qed.

(** C5: when the initial list has no duplicates and names only columns
    of [X], so has the included list, wherever the call stands: in the
    list of a call that returned, that raised or that was stopped
    between two passes, and after every forward step (the adds) and
    every backward step (the removes) started from such a list. *)
Theorem C5_included_stays_valid initial_list initial s :
  heap s !! initial_list = Some initial →
  valid X initial →
  (∀ fuel, ∃ included,
     heap (stepwise_selection initial_list fuel s).2 !! length (heap s)
       = Some included ∧
     valid X included ∧
     ∀ ret, (stepwise_selection initial_list fuel s).1 = Val ret →
       ret = length (heap s)) ∧
  (∀ a cur s0, heap s0 !! a = Some cur → valid X cur →
     ∃ cur', heap (forward_step a s0).2 !! a = Some cur' ∧ valid X cur') ∧
  (∀ a cur changed s0, heap s0 !! a = Some cur → valid X cur →
     ∃ cur', heap (backward_step a changed s0).2 !! a = Some cur' ∧
       valid X cur').
Proof.
  intros Ha Hvalid. split_and!.
  - intros fuel. rewrite (stepwise_selection_run_at _ _ _ _ Ha).
    destruct (while_val fuel initial) as [[evs included] r] eqn:Hw.
    exists included. cbn [fst snd heap]. split_and!.
    + apply lookup_fresh.
    + apply (while_val_inv (λ _ l, valid X l)) with (pre := [])
        in Hw; eauto using valid_forward, valid_backward.
    + destruct r; simpl; [by intros ? [= <-] | done..].
  - intros a cur s0 Hcur Hv. rewrite (forward_step_run _ _ _ Hcur).
    pose proof (forward_val_spec cur) as Hs.
    destruct (forward_val cur) as [[evs cur'] r]. exists cur'.
    split; [by eapply heap_after | by eapply valid_forward].
  - intros a cur changed s0 Hcur Hv.
    rewrite (backward_step_run _ _ _ _ Hcur).
    pose proof (backward_val_spec cur changed) as Hs.
    destruct (backward_val cur changed) as [[evs cur'] r]. exists cur'.
    split; [by eapply heap_after | by eapply valid_backward].
Qed.


(** *** The trace of a call *)

Lemma trace_ok_app l evs1 evs2 cur :
  replay evs1 l = Some cur →
  trace_ok X l evs1 → trace_ok X cur evs2 → trace_ok X l (evs1 ++ evs2).
Proof.
  revert l. induction evs1 as [|[exog|x|x|msg] evs1 IH]; intros l; simpl.
  - by intros [= ->].
  - intros Hr [? ?] ?. split; [done|]. by apply IH.
  - intros. by apply IH.
  - destruct (remove_first x l); simpl; [|done]. intros. by apply IH.
  - intros. by apply IH.
Qed.


(** The fits of the forward loop: no mutation, and each one a fit of the
    list with one candidate appended. *)
Lemma fits_effect cur cs :
  (∀ c, c ∈ cs → c ∈ columns X ∧ c ∉ cur) →
  replay (cs ≫= candidate_events cur) cur = Some cur ∧
  trace_ok X cur (cs ≫= candidate_events cur) ∧
  appended (cs ≫= candidate_events cur) = [] ∧
  removed (cs ≫= candidate_events cur) = [].
Proof.
  induction cs as [|c cs IH]; intros Hcs; [done|].
  destruct IH as (IH1 & IH2 & IH3 & IH4).
  { intros c' Hc'. apply Hcs. by right. }
  destruct (Hcs c) as [Hc Hn]; [by left|].
  change ((c :: cs) ≫= candidate_events cur)
    with (candidate_events cur c ++ (cs ≫= candidate_events cur)).
  unfold candidate_events at 1 3 5 7.
  destruct (getitem X (cur ++ [c])) as [exog| |] eqn:Hg; simpl; try done.
  split_and!; try done. right. by exists c.
Qed.

Lemma excluded_take k cur c :
  c ∈ take k (excluded_of cur) → c ∈ columns X ∧ c ∉ cur.
Proof.
  intros Hc. apply elem_of_excluded_of.
  eapply sublist_subseteq; [apply sublist_take | done].
Qed.

Lemma forward_effect cur evs cur' r :
  forward_spec cur (evs, cur', r) →
  replay evs cur = Some cur' ∧ trace_ok X cur evs ∧ removed evs = [] ∧
  ((appended evs = [] ∧ cur' = cur) ∨
   (∃ f, appended evs = [f] ∧ cur' = cur ++ [f])).
Proof.
  intros Hs. remember (evs, cur', r) as out eqn:Hout.
  destruct Hs as [f p Hf Hn Hp Hlt Hmin|Hall|k c e Hc Hn He];
    injection Hout as <- <- <-.
  - destruct (fits_effect cur (excluded_of cur)) as (H1 & H2 & H3 & H4).
    { intros c. apply elem_of_excluded_of. }
    rewrite replay_app, H1. unfold appended, removed in *.
    rewrite !omap_app, H3, H4. unfold printed.
    split_and!; [by destruct verbose| |by destruct verbose|].
    + eapply trace_ok_app; [done..|]. by destruct verbose.
    + right. exists f. by destruct verbose.
  - destruct (fits_effect cur (excluded_of cur)) as (H1 & H2 & H3 & H4).
    { intros c. apply elem_of_excluded_of. }
    split_and!; auto.
  - destruct (fits_effect cur (take k (excluded_of cur)))
      as (H1 & H2 & H3 & H4); [apply excluded_take|].
    split_and!; auto.
Qed.

Lemma backward_effect cur changed evs cur' r :
  backward_spec cur changed (evs, cur', r) →
  replay evs cur = Some cur' ∧ trace_ok X cur evs ∧ appended evs = [] ∧
  ((removed evs = [] ∧ cur' = cur) ∨
   (∃ f, removed evs = [f] ∧ remove_first f cur = Some cur')).
Proof.
  intros Hs. remember (evs, cur', r) as out eqn:Hout.
  destruct Hs as [exog p i f q cur0 Hg Hp Hi Hgt Hmax Hr|exog p Hg Hp Hall| |];
    injection Hout as <- <- <-; simpl.
  - rewrite Hr. unfold printed. simpl.
    split_and!; [by destruct verbose|by left|by destruct verbose..|].
    right. exists f. by destruct verbose.
  - split_and!; auto. by left.
  - split_and!; auto.
  - split_and!; auto. by left.
Qed.

(** The invariant behind C8 and C10. *)
Lemma while_val_trace initial fuel evs cur' r :
  while_val fuel initial = (evs, cur', r) →
  replay evs initial = Some cur' ∧ trace_ok X initial evs ∧
  ∃ kept added, cur' = kept ++ added ∧
    kept `sublist_of` initial ∧ added `sublist_of` appended evs.
Proof.
  intros Hw.
  apply (while_val_inv (λ pre cur,
    replay pre initial = Some cur ∧ trace_ok X initial pre ∧
    ∃ kept added, cur = kept ++ added ∧
      kept `sublist_of` initial ∧ added `sublist_of` appended pre))
    with (pre := []) in Hw; [done| | |].
  - intros pre cur evs1 cur1 r1 (Hr & Hok & kept & added & -> & Hk & Hadd)
      (Hr1 & Hok1 & _ & Happ)%forward_effect.
    rewrite replay_app, Hr. split_and!; [done|by eapply trace_ok_app|].
    rewrite appended_app.
    destruct Happ as [[-> ->]|(f & -> & ->)].
    + exists kept, added. by rewrite app_nil_r.
    + exists kept, (added ++ [f]). rewrite app_assoc.
      split_and!; [done..|]. by apply sublist_app.
  - intros pre cur changed evs1 cur1 r1
      (Hr & Hok & kept & added & -> & Hk & Hadd)
      (Hr1 & Hok1 & Happ & Hrem)%backward_effect.
    rewrite replay_app, Hr. split_and!; [done|by eapply trace_ok_app|].
    rewrite appended_app, Happ, app_nil_r.
    destruct Hrem as [[_ ->]|(f & _ & Hf)]; [by exists kept, added|].
    rewrite remove_first_app in Hf.
    destruct (remove_first f kept) as [kept'|] eqn:Hkept.
    + injection Hf as <-. exists kept', added. split_and!; [done| |done].
      etrans; [by eapply remove_first_sublist | done].
    + destruct (remove_first f added) as [added'|] eqn:Hadded;
        [|done]. injection Hf as <-. exists kept, added'.
      split_and!; [done..|].
      etrans; [by eapply remove_first_sublist | done].
  - split_and!; [done..|]. exists initial, [].
    split_and!; [by rewrite app_nil_r | done | done].
Qed.

Lemma replay_prefix pre post l r :
  replay (pre ++ post) l = Some r →
  ∃ m, replay pre l = Some m ∧ replay post m = Some r.
Proof.
  rewrite replay_app. destruct (replay pre l) as [m|]; simpl; [|done].
  intros Hr. by exists m.
Qed.

(** The lists a trace passes through are those its first parts leave. *)
Lemma replay_held evs l pre post m :
  evs = pre ++ post → replay pre l = Some m →
  m ∈ omap (λ k, replay (take k evs) l) (seq 0 (S (length evs))).
Proof.
  intros -> Hr. apply list_elem_of_omap. exists (length pre). split.
  - apply elem_of_seq. rewrite length_app. lia.
  - by rewrite take_app_length.
Qed.

(** C8: the returned list is [initial_list] after the appends and the
    removes of the call, in the order they happened: an append puts its
    feature last, a remove deletes the first occurrence of its feature
    and nothing else.  So the list is a part of the initial list, in its
    order, followed by a part of the features appended, in the order of
    their appending. *)
Theorem C8_historical_insertion_order initial_list initial fuel s ret s' :
  heap s !! initial_list = Some initial →
  stepwise_selection initial_list fuel s = (Val ret, s') →
  ∃ evs included,
    trace s' = trace s ++ evs ∧ heap s' !! ret = Some included ∧
    replay evs initial = Some included ∧
    (∃ kept added, included = kept ++ added ∧
       kept `sublist_of` initial ∧ added `sublist_of` appended evs) ∧
    (∀ pre x post, evs = pre ++ list_append x :: post →
       ∃ l, replay pre initial = Some l ∧
         replay (pre ++ [list_append x]) initial = Some (l ++ [x])) ∧
    (∀ pre x post, evs = pre ++ list_remove x :: post →
       ∃ l1 l2, replay pre initial = Some (l1 ++ x :: l2) ∧ (x ∉ l1) ∧
         replay (pre ++ [list_remove x]) initial = Some (l1 ++ l2)).
Proof.
  intros Ha. rewrite (stepwise_selection_run_at _ _ _ _ Ha).
  destruct (while_val fuel initial) as [[evs included] [[]| |]] eqn:Hw;
    simpl; [|done..].
  intros [= <- <-]. exists evs, included. cbn [heap trace].
  destruct (while_val_trace _ _ _ _ _ Hw) as (Hr & _ & Hparts).
  split_and!; [done|apply lookup_fresh|done..| |].
  - intros pre x post ->.
    destruct (replay_prefix _ _ _ _ Hr) as (l & Hl & _).
    exists l. split; [done|]. by rewrite replay_app, Hl.
  - intros pre x post ->.
    destruct (replay_prefix _ _ _ _ Hr) as (l & Hl & Hpost).
    simpl in Hpost. destruct (remove_first x l) as [l'|] eqn:Hx; [|done].
    destruct (remove_first_Some _ _ _ Hx) as (l1 & l2 & -> & -> & ?).
    exists l1, l2. split_and!; [done..|].
    rewrite replay_app, Hl. simpl. by rewrite Hx.
Qed.

(** *** The columns of a design *)




(** *** The decisions of a call *)









(** *** How a call can fail *)

Lemma filter_label_NoDup (l : DataFrame) k :
  NoDup l.*1 → (length (filter (λ kv, kv.1 = k) l) ≤ 1)%nat.
Proof.
  induction l as [|[k' v] l IH]; simpl; [lia|].
  intros [Hn Hnd]%NoDup_cons. rewrite filter_cons. simpl.
  destruct (decide (k' = k)) as [->|]; [|auto]. simpl.
  destruct (filter (λ kv, kv.1 = k) l) as [|[k2 v2] rest] eqn:Hf;
    [simpl; lia|].
  assert (Hin : (k2, v2) ∈ filter (λ kv, kv.1 = k) l) by (rewrite Hf; left).
  apply list_elem_of_filter in Hin as [Hk Hin]. simpl in Hk. subst k2.
  destruct Hn. by apply (list_elem_of_fmap_2 fst) in Hin.
Qed.

(** With unique labels a selection has exactly the labels asked for. *)
Lemma getitem_index cols exog :
  NoDup (columns X) → getitem X cols = Val exog → exog.*1 = cols.
Proof.
  intros Hnd. revert exog. induction cols as [|c cols IH]; intros exog;
    simpl; [by intros [= <-]|].
  pose proof (filter_label_NoDup X c Hnd) as Hlen.
  destruct (filter (λ kv, kv.1 = c) X) as [|kv [|kv' sel]] eqn:Hf;
    [done| |simpl in Hlen; lia].
  destruct (getitem X cols) as [rest| |]; simpl; [|done..].
  intros [= <-]. simpl. f_equal; [|apply (IH _ eq_refl)].
  assert (Hin : kv ∈ filter (λ kv, kv.1 = c) X) by (rewrite Hf; left).
  by apply list_elem_of_filter in Hin as [? _].
Qed.

Lemma filter_label_fmap (s : Series) k :
  (filter (λ kv, kv.1 = k) s).*1 = filter (λ k', k' = k) s.*1.
Proof.
  induction s as [|[k' v] s IH]; [done|].
  rewrite fmap_cons, !filter_cons. simpl.
  destruct (decide (k' = k)); rewrite ?fmap_cons; by rewrite IH.
Qed.

Lemma filter_label_absent (l : list name) k :
  k ∉ l → filter (λ k', k' = k) l = [].
Proof.
  induction l as [|k' l IH]; [done|].
  intros Hn. rewrite filter_cons.
  destruct (decide (k' = k)) as [->|]; [destruct Hn; left|].
  apply IH. intros ?. apply Hn. by right.
Qed.

(** A candidate's fit fails on a name of the included list that [X]
    lacks, in the fit itself, or on a label that [X] carries twice. *)
Lemma candidate_pvalue_Exn cur c e :
  c ∈ columns X → c ∉ cur → candidate_pvalue cur c = Exn e →
  (∃ k, e = KeyError k ∧ k ∈ cur ∧ k ∉ columns X) ∨
  (e = FitError ∧ ∃ exog, fit_of X cur exog ∧ OLS y exog = None) ∨
  (e = ValueError ∧ ¬ NoDup (columns X)).
Proof.
  intros Hc Hn. unfold candidate_pvalue.
  destruct (getitem X (cur ++ [c])) as [exog|e'|] eqn:Hg; simpl;
    [| |done].
  - destruct (OLS y exog) as [p|] eqn:Hp; simpl.
    + unfold Series_getitem.
      destruct (filter (λ kv, kv.1 = c) (pvalues_of exog p))
        as [|kv [|kv' rest]] eqn:Hf; [|done|].
      * intros _. exfalso.
        destruct (getitem_Val _ _ Hg) as [_ Hlab].
        assert (Hin : c ∈ (pvalues_of exog p).*1).
        { rewrite pvalues_of_index. apply Hlab, elem_of_app. right. left. }
        apply list_elem_of_fmap in Hin as ([k q] & Hk & Hin).
        simpl in Hk. subst k.
        assert (Hin' : (c, q) ∈ filter (λ kv, kv.1 = c) (pvalues_of exog p))
          by by apply list_elem_of_filter.
        rewrite Hf in Hin'. by apply elem_of_nil in Hin'.
      * intros [= <-]. right. right. split; [done|]. intros Hnd.
        pose proof (f_equal (fmap fst) Hf) as Hl.
        rewrite filter_label_fmap, pvalues_of_index,
          (getitem_index _ _ Hnd Hg), filter_app,
          (filter_label_absent _ _ Hn) in Hl.
        rewrite filter_cons, decide_True in Hl by done. done.
    + intros [= <-]. right. left. split; [done|]. exists exog.
      split; [|done]. right. by exists c.
  - intros [= <-]. left. destruct (getitem_Exn _ _ Hg) as (k & -> & Hk & ?).
    exists k. split_and!; [done| |done].
    apply elem_of_app in Hk as [?|Hk]; [done|].
    by apply list_elem_of_singleton in Hk as ->.
Qed.

(** A call that raises raises in a step, at a list that the steps so far
    have kept within what [P] allows. *)
Lemma while_val_Exn (P : list name → Prop) :
  (∀ cur evs cur' r, P cur → forward_spec cur (evs, cur', r) → P cur') →
  (∀ cur changed evs cur' r,
     P cur → backward_spec cur changed (evs, cur', r) → P cur') →
  ∀ fuel cur evs cur' e,
    P cur → while_val fuel cur = (evs, cur', Exn e) →
    ∃ l evs1, P l ∧
      (forward_spec l (evs1, cur', Exn e) ∨
       ∃ changed, backward_spec l changed (evs1, cur', Exn e)).
Proof.
  intros Hfwd Hbwd. induction fuel as [|fuel IH]; intros cur evs cur' e HP;
    [done|].
  cbn [while_val].
  pose proof (forward_val_spec cur) as Hf.
  destruct (forward_val cur) as [[evs1 cur1] r1].
  pose proof (Hfwd _ _ _ _ HP Hf) as HP1.
  destruct r1 as [changed1|e1|]; cbn [stop]; [| |done].
  - pose proof (backward_val_spec cur1 changed1) as Hb.
    destruct (backward_val cur1 changed1) as [[evs2 cur2] r2].
    pose proof (Hbwd _ _ _ _ _ HP1 Hb) as HP2.
    destruct r2 as [changed2|e2|]; cbn [stop]; [| |done].
    + destruct changed2; cbn [negb]; [|done].
      destruct (while_val fuel cur2) as [[evs3 cur3] r3] eqn:Hw.
      intros [= <- <- ->]. by eapply IH.
    + intros [= <- <- <-]. exists cur1, evs2. split; [done|]. right.
      by exists changed1.
  - intros [= <- <- <-]. exists cur, evs1. split; [done|]. by left.
Qed.

(** C3, as the code has it: no threshold is checked.  With
    [threshold_in >= threshold_out] a call runs its passes like any other
    and has no failure of its own: when it raises, it raises [KeyError]
    for a name of the initial list that [X] lacks, the error of a fit
    that failed, or [ValueError] over a label that [X] carries twice. *)
Theorem C3_thresholds_are_not_checked initial_list initial fuel s e s' :
  SFleb threshold_out threshold_in = true →
  heap s !! initial_list = Some initial →
  stepwise_selection initial_list fuel s = (Exn e, s') →
  (∃ k, e = KeyError k ∧ k ∈ initial ∧ k ∉ columns X) ∨
  (e = FitError ∧ ∃ l exog, fit_of X l exog ∧ OLS y exog = None) ∨
  (e = ValueError ∧ ¬ NoDup (columns X)).
Proof.
  intros _ Ha. rewrite (stepwise_selection_run_at _ _ _ _ Ha).
  destruct (while_val fuel initial) as [[evs cur'] [[]|e'|]] eqn:Hw;
    simpl; [done| |done].
  intros [= <- <-].
  apply (while_val_Exn (λ l, ∀ k, k ∈ l → k ∈ initial ∨ k ∈ columns X))
    in Hw as (l & evs1 & Hl & Hstep).
  - destruct Hstep as [Hs|[changed Hs]].
    + inversion Hs as [| |k c e0 Hc Hn He]; subst.
      destruct (candidate_pvalue_Exn _ _ _ Hc Hn He)
        as [(k' & -> & Hk & Hx)|[(-> & exog & ? & ?)|?]]; [|eauto 10..].
      left. exists k'. split_and!; [done| |done].
      by destruct (Hl _ Hk).
    + inversion Hs as [| |k Hg Hk Hx|exog Hg Hp]; subst.
      * left. exists k. split_and!; [done| |done]. by destruct (Hl _ Hk).
      * right. left. split; [done|]. exists cur', exog.
        split; [by left | done].
  - intros cur evs1 cur1 r Hcur Hs. inversion Hs; subst; [|done..].
    intros k [?|Hk]%elem_of_app; [auto|].
    apply list_elem_of_singleton in Hk as ->. auto.
  - intros cur changed evs1 cur1 r Hcur Hs. inversion Hs; subst; [|done..].
    intros k Hk. apply Hcur.
    eapply sublist_subseteq; [by eapply remove_first_sublist | done].
  - auto.
Qed.

(** *** Calls that never add *)

Lemma forward_val_keep cur :
  (∀ c, c ∈ columns X → c ∉ cur →
     ∃ q, candidate_pvalue cur c = Val q ∧ lt q threshold_in = false) →
  forward_val cur = (excluded_of cur ≫= candidate_events cur, cur, Val false).
Proof.
  intros Hcand. pose proof (forward_val_spec cur) as Hs.
  destruct (forward_val cur) as [[evs cur'] r].
  remember (evs, cur', r) as out eqn:Hout.
  destruct Hs as [f p Hf Hn Hp Hlt Hmin|Hall|k c e Hc Hn He]; [|done|].
  - destruct (Hcand f Hf Hn) as (q & Hq & Hlt'). congruence.
  - destruct (Hcand c Hc Hn) as (q & Hq & _). congruence.
Qed.

Lemma remove_first_length x l l' :
  remove_first x l = Some l' → length l = S (length l').
Proof.
  intros (l1 & l2 & -> & -> & _)%remove_first_Some.
  rewrite !length_app. simpl. lia.
Qed.

(** A call whose lists never offer a candidate below [threshold_in], and
    whose fits succeed on those lists, only removes: each pass but the
    last shortens the list, so [length l + 1] passes are enough. *)
Lemma while_val_no_addition fuel l evs ret r :
  while_val fuel l = (evs, ret, r) →
  length l < fuel →
  (∀ pre post m, evs = pre ++ post → replay pre l = Some m →
     (∃ exog p, getitem X m = Val exog ∧ OLS y exog = Some p) ∧
     ∀ c, c ∈ columns X → c ∉ m →
       ∃ q, candidate_pvalue m c = Val q ∧ lt q threshold_in = false) →
  r = Val tt ∧ appended evs = [] ∧ ret `sublist_of` l ∧
  (ret = l ↔
   ∃ exog p, getitem X l = Val exog ∧ OLS y exog = Some p ∧
     ∀ g q, (g, q) ∈ pvalues_of exog p → gt q threshold_out = false).
Proof.
  revert l evs ret r.
  induction fuel as [|fuel IH]; intros l evs ret r Hw Hlen Hyp; [lia|].
  destruct (Hyp [] evs l eq_refl eq_refl) as [(exog & p & Hg & Hp) Hcand].
  cbn [while_val] in Hw. rewrite (forward_val_keep _ Hcand) in Hw.
  destruct (fits_effect l (excluded_of l)) as (Hrep1 & _ & Happ1 & _).
  { intros c. apply elem_of_excluded_of. }
  pose proof (backward_val_spec l false) as Hs.
  destruct (backward_val l false) as [[evs2 cur2] r2].
  pose proof (backward_effect _ _ _ _ _ Hs) as (Hrep2 & _ & Happ2 & _).
  remember (evs2, cur2, r2) as out eqn:Hout.
  destruct Hs as [exog' p' i f q cur' Hg' Hp' Hi Hgt Hmax Hr|exog' p' Hg' Hp' Hall| |];
    injection Hout as <- <- <-; try congruence.
  - cbn [negb] in Hw.
    destruct (while_val fuel cur') as [[evs3 cur3] r3] eqn:Hw3.
    injection Hw as <- <- <-.
    destruct (IH cur' evs3 cur3 r3 Hw3) as (-> & Happ3 & Hret & _).
    { apply remove_first_length in Hr. lia. }
    { intros pre post m -> Hrep.
      apply (Hyp ((excluded_of l ≫= candidate_events l)
                    ++ (OLS_fit exog' :: list_remove f :: printed verbose (Drop f q))
                    ++ pre) post).
      - by rewrite <- !app_assoc.
      - rewrite replay_app, Hrep1. cbn [mbind option_bind].
        by rewrite replay_app, Hrep2. }
    pose proof (remove_first_sublist _ _ _ Hr) as Hsl.
    split_and!; [done| |by etrans|].
    + rewrite appended_app, Happ1.
      change (OLS_fit exog' :: list_remove f
                :: printed verbose (Drop f q) ++ evs3)
        with ((OLS_fit exog' :: list_remove f
                 :: printed verbose (Drop f q)) ++ evs3).
      by rewrite appended_app, Happ2, Happ3.
    + split.
      * intros ->. apply sublist_length in Hret.
        apply remove_first_length in Hr. lia.
      * intros (exog0 & p0 & Hg0 & Hp0 & Hall).
        rewrite Hg' in Hg0. injection Hg0 as <-.
        rewrite Hp' in Hp0. injection Hp0 as <-.
        apply list_elem_of_lookup_2 in Hi. by rewrite (Hall _ _ Hi) in Hgt.
  - cbn [negb] in Hw. injection Hw as <- <- <-.
    split_and!; [done| |done|].
    + by rewrite appended_app, Happ1, Happ2.
    + split; [|done]. intros _. by exists exog', p'.
Qed.

(** C4, as the code has it.  Take a call in which no forward step ever
    finds a candidate below [threshold_in] and in which the fits succeed:
    for every list the call holds at some moment (the initial list after
    any first part of the call's appends and removes), the fit on the list
    succeeds and every column outside it has a p-value that is not below
    [threshold_in].  Such a call returns, without an error and within
    [length initial + 1] passes, the initial list less what its backward
    steps removed: a part of the initial list in its order, with nothing
    appended.  It is the initial list itself exactly when the fit on the
    initial list has no p-value above [threshold_out]. *)
Theorem C4_no_addition_returns_part_of_initial
    initial_list initial fuel s evs :
  heap s !! initial_list = Some initial →
  length initial < fuel →
  trace (stepwise_selection initial_list fuel s).2 = trace s ++ evs →
  (∀ pre post l, evs = pre ++ post → replay pre initial = Some l →
     (∃ exog p, getitem X l = Val exog ∧ OLS y exog = Some p) ∧
     ∀ c, c ∈ columns X → c ∉ l →
       ∃ q, candidate_pvalue l c = Val q ∧ lt q threshold_in = false) →
  ∃ ret s' included,
    stepwise_selection initial_list fuel s = (Val ret, s') ∧
    heap s' !! ret = Some included ∧
    appended evs = [] ∧
    replay evs initial = Some included ∧
    included `sublist_of` initial ∧
    (included = initial ↔
     ∃ exog p, getitem X initial = Val exog ∧ OLS y exog = Some p ∧
       ∀ g q, (g, q) ∈ pvalues_of exog p → gt q threshold_out = false).
Proof.
  intros Ha Hlen. rewrite (stepwise_selection_run_at _ _ _ _ Ha).
  destruct (while_val fuel initial) as [[evs' included] r] eqn:Hw.
  cbn [snd trace]. intros <-%app_inv_head Hyp.
  destruct (while_val_no_addition _ _ _ _ _ Hw Hlen Hyp)
    as (-> & Happ & Hsub & Hiff).
  destruct (while_val_trace _ _ _ _ _ Hw) as (Hr & _ & _).
  eexists _, _, included. simpl.
  split_and!; try done. apply lookup_fresh.
Qed.

(** *** No columns *)



End runs.

(** ** The argument and the default list *)

Section calls.

Context (X : DataFrame) (y : column).
Context (OLS : column → DataFrame → option (nat → float)).
Context `{SetOrder}.

Lemma stepwise_selection_frame tin tout verbose initial_list fuel s :
  ∃ included,
    heap (stepwise_selection X y OLS tin tout verbose initial_list fuel s).2
      = heap s ++ [included].
Proof.
  rewrite stepwise_selection_run.
  destruct (while_val _ _ _ _ _ _ _ _) as [[evs included] r].
  by exists included.
Qed.

Lemma calls_with_default_frame d calls s a l :
  heap s !! a = Some l →
  heap (calls_with_default X y OLS d calls s) !! a = Some l.
Proof.
  revert s. induction calls as [|c calls IH]; intros s Ha; [done|].
  simpl. apply IH.
  destruct (stepwise_selection_frame (arg_threshold_in c)
    (arg_threshold_out c) (arg_verbose c) d (arg_fuel c) s) as [included ->].
  by apply lookup_app_l_Some.
Qed.

(** C9: a call leaves every list that existed before it as it was, the
    list passed as [initial_list] among them: all it does to the store
    is to add one list, at a new address, and that address is what it
    returns, so the returned list is not the argument.  The default list
    of [initial_list], built once by the [def], is therefore still empty
    after any number of calls that use it, and the copy each such call
    starts from is empty. *)
Theorem C9_initial_list_is_not_mutated
    tin tout verbose initial_list fuel s calls :
  let run := stepwise_selection X y OLS tin tout verbose initial_list fuel s
  in
  (∃ included, heap run.2 = heap s ++ [included]) ∧
  (∀ a l, heap s !! a = Some l → heap run.2 !! a = Some l) ∧
  (∀ ret, run.1 = Val ret →
     ret = length (heap s) ∧ heap s !! ret = None ∧
     (is_Some (heap s !! initial_list) → ret ≠ initial_list)) ∧
  (let default_list := length (heap s) in
   let before :=
     calls_with_default X y OLS default_list calls
       (def_stepwise_selection s).2 in
   (def_stepwise_selection s).1 = Val default_list ∧
   heap before !! default_list = Some [] ∧
   heap (list_copy default_list before).2 !! length (heap before)
     = Some []).
Proof.
  intros run.
  destruct (stepwise_selection_frame tin tout verbose initial_list fuel s)
    as [included Hheap]. fold run in Hheap.
  assert (Hret : ∀ ret, run.1 = Val ret → ret = length (heap s)).
  { unfold run. rewrite stepwise_selection_run.
    destruct (while_val _ _ _ _ _ _ _ _) as [[evs cur'] r].
    destruct r; simpl; [by intros ? [= <-] | done..]. }
  split_and!.
  - by exists included.
  - intros a l Ha. rewrite Hheap. by apply lookup_app_l_Some.
  - intros ret ->%Hret. split_and!; [done| |].
    + by apply lookup_ge_None.
    + intros [l Hl] <-. apply lookup_lt_Some in Hl. lia.
  - intros default_list before.
    assert (Hd : heap before !! default_list = Some []).
    { apply calls_with_default_frame. apply lookup_fresh. }
    split_and!; [done..|].
    unfold list_copy. cbn [snd heap]. fold loc in Hd |- *.
    rewrite Hd. apply lookup_fresh.
Qed.

End calls.

(** * Further properties of the function and of the script *)

Section further.

Context (X : DataFrame) (y : column).
Context (OLS : column → DataFrame → option (nat → float)).
Context `{SetOrder}.
Context (threshold_in threshold_out : float).

Abbreviation forward_val := (forward_val X y OLS threshold_in).
Abbreviation backward_val := (backward_val X y OLS threshold_out).
Abbreviation while_val := (while_val X y OLS threshold_in threshold_out).
Abbreviation stepwise_selection :=
  (stepwise_selection X y OLS threshold_in threshold_out).
Abbreviation scan_val := (scan_val X y OLS).
Abbreviation candidate_pvalue := (candidate_pvalue X y OLS).
Abbreviation candidate_events := (candidate_events X).
Abbreviation excluded_of := (excluded_of X).

(** ** Printing *)

Lemma silent_app evs1 evs2 : silent (evs1 ++ evs2) = silent evs1 ++ silent evs2.
Proof. apply filter_app. Qed.

Lemma printed_lines_app evs1 evs2 :
  printed_lines (evs1 ++ evs2) = printed_lines evs1 ++ printed_lines evs2.
Proof. apply omap_app. Qed.

Lemma removed_app evs1 evs2 :
  removed (evs1 ++ evs2) = removed evs1 ++ removed evs2.
Proof. apply omap_app. Qed.

(** The fits of the forward loop print nothing and mutate nothing. *)
Lemma fits_plain cur cs :
  silent (cs ≫= candidate_events cur) = (cs ≫= candidate_events cur) ∧
  printed_lines (cs ≫= candidate_events cur) = [] ∧
  appended (cs ≫= candidate_events cur) = [] ∧
  removed (cs ≫= candidate_events cur) = [].
Proof.
  induction cs as [|c cs (IH1 & IH2 & IH3 & IH4)]; [done|].
  change ((c :: cs) ≫= candidate_events cur)
    with (candidate_events cur c ++ (cs ≫= candidate_events cur)).
  rewrite silent_app, printed_lines_app, appended_app, removed_app,
    IH1, IH2, IH3, IH4.
  unfold candidate_events. by destruct (getitem X (cur ++ [c])).
Qed.

Lemma scan_plain cur cs acc :
  silent (scan_val cur cs acc).1 = (scan_val cur cs acc).1 ∧
  printed_lines (scan_val cur cs acc).1 = [] ∧
  appended (scan_val cur cs acc).1 = [] ∧
  removed (scan_val cur cs acc).1 = [].
Proof.
  destruct (scan_val_events X y OLS cur cs acc) as [k ->]. apply fits_plain.
Qed.

Lemma forward_val_verbose cur :
  same_but_silent (forward_val true cur) (forward_val false cur).
Proof.
  unfold same_but_silent, forward_val.
  destruct (scan_plain cur (excluded_of cur) (Series_new (excluded_of cur)))
    as (Hs & Hp & Ha & Hr).
  destruct (scan_val cur (excluded_of cur) (Series_new (excluded_of cur)))
    as [evs [new_pval|e|]]; cbn [fst snd stop] in *;
    [|by rewrite Hs, Hp, Ha, Hr..].
  destruct (lt (Series_min new_pval) threshold_in); cbn [fst snd];
    [|by rewrite Hs, Hp, Ha, Hr].
  destruct (index_at new_pval (Series_argmin new_pval)) as [f| |];
    cbn [fst snd stop]; [|by rewrite Hs, Hp, Ha, Hr..].
  rewrite !silent_app, !printed_lines_app, !appended_app, !removed_app,
    Hs, Hp, Ha, Hr.
  change (silent [list_append f; print (Add f (Series_min new_pval))])
    with [list_append f].
  done.
Qed.

Lemma backward_val_verbose cur changed :
  same_but_silent (backward_val true cur changed)
    (backward_val false cur changed).
Proof.
  unfold same_but_silent, backward_val.
  destruct (getitem X cur) as [exog| |]; [|done..].
  destruct (OLS y exog) as [p|]; [|done].
  destruct (gt (Series_max (pvalues_of exog p)) threshold_out); [|done].
  destruct (index_at _ _) as [f| |]; [|done..].
  by destruct (remove_first f cur).
Qed.

Lemma while_val_verbose fuel cur :
  same_but_silent (while_val true fuel cur) (while_val false fuel cur).
Proof.
  revert cur. induction fuel as [|fuel IH]; intros cur; [done|].
  unfold same_but_silent in *. cbn [while_val].
  destruct (forward_val_verbose cur) as (-> & Hq1 & Hn1).
  destruct (forward_val true cur) as [[evs1 cur1] r1]. cbn [fst snd] in *.
  destruct r1 as [changed1| |]; cbn [stop fst snd]; [|done..].
  destruct (backward_val_verbose cur1 changed1) as (-> & Hq2 & Hn2).
  destruct (backward_val true cur1 changed1) as [[evs2 cur2] r2].
  cbn [fst snd] in *.
  assert (Hq12 : printed_lines (silent (evs1 ++ evs2)) = [])
    by by rewrite silent_app, printed_lines_app, Hq1, Hq2.
  assert (Hn12 : length (printed_lines (evs1 ++ evs2))
    = length (appended (evs1 ++ evs2)) + length (removed (evs1 ++ evs2))).
  { rewrite printed_lines_app, appended_app, removed_app, !length_app. lia. }
  destruct r2 as [changed2| |]; unfold stop; cbn [fst snd];
    [|split_and!; [by rewrite silent_app|done..]..].
  destruct changed2; cbn [negb fst snd];
    [|split_and!; [by rewrite silent_app|done..]].
  destruct (IH cur2) as (-> & Hq3 & Hn3).
  destruct (while_val true fuel cur2) as [[evs3 cur3] r3]. cbn [fst snd] in *.
  rewrite !silent_app, !printed_lines_app, !appended_app, !removed_app,
    !length_app, Hq1, Hq2, Hq3.
  split_and!; [done..|lia].
Qed.

(** X1: [verbose] changes what is printed and nothing else.  A call with
    [verbose=True] and the same call with [verbose=False] end alike, with
    the same lists in the store; the quiet call prints nothing, its trace
    is that of the loud call less the printed lines, and the loud call
    prints exactly one line for each append and each remove. *)
Theorem X1_verbose_only_prints initial_list fuel s :
  let loud := stepwise_selection true initial_list fuel s in
  let quiet := stepwise_selection false initial_list fuel s in
  quiet.1 = loud.1 ∧ heap quiet.2 = heap loud.2 ∧
  ∃ evs, trace loud.2 = trace s ++ evs ∧
    trace quiet.2 = trace s ++ silent evs ∧
    printed_lines (silent evs) = [] ∧
    length (printed_lines evs) = length (appended evs) + length (removed evs).
Proof.
  intros loud quiet. unfold loud, quiet.
  rewrite !stepwise_selection_run.
  destruct (while_val_verbose fuel (default [] (heap s !! initial_list)))
    as (-> & Hq & Hn).
  destruct (while_val true fuel _) as [[evs cur'] r]. cbn [fst snd] in *.
  split_and!; [done..|]. by exists evs.
Qed.

(** ** A name that is not a column *)

Lemma filter_label_elem_of (df : DataFrame) k :
  k ∈ columns df → filter (λ kv, kv.1 = k) df ≠ [].
Proof.
  intros ([k' v] & Hk & Hin)%list_elem_of_fmap Hf. simpl in Hk. subst k'.
  assert (Hin' : (k, v) ∈ filter (λ kv, kv.1 = k) df)
    by by apply list_elem_of_filter.
  rewrite Hf in Hin'. by apply elem_of_nil in Hin'.
Qed.

Lemma filter_label_not_elem_of (df : DataFrame) k :
  k ∉ columns df → filter (λ kv, kv.1 = k) df = [].
Proof.
  intros Hn. apply elem_of_nil_inv. intros [k' v] [Hk Hin]%list_elem_of_filter.
  simpl in Hk. subst k'. apply Hn. by apply (list_elem_of_fmap_2 fst) in Hin.
Qed.

(** Selection fails on the first label asked for that the frame lacks. *)
Lemma getitem_first_missing l1 k l2 :
  (∀ x, x ∈ l1 → x ∈ columns X) → k ∉ columns X →
  getitem X (l1 ++ k :: l2) = Exn (KeyError k).
Proof.
  intros Hl1 Hk. induction l1 as [|c l1 IH]; simpl.
  - by rewrite (filter_label_not_elem_of _ _ Hk).
  - pose proof (filter_label_elem_of X c (Hl1 c ltac:(left))) as Hc.
    destruct (filter (λ kv, kv.1 = c) X) as [|kv sel]; [done|].
    rewrite IH; [done|]. intros x Hx. apply Hl1. by right.
Qed.

(** X2: when the initial list names something that is not a column of
    [X], the call raises [KeyError] for the first such name, in its first
    pass and before any fit: the store has gained the copy of the initial
    list, unchanged, and the trace nothing. *)
Theorem X2_missing_column_raises_KeyError
    verbose initial_list l1 k l2 fuel s :
  heap s !! initial_list = Some (l1 ++ k :: l2) →
  (∀ x, x ∈ l1 → x ∈ columns X) →
  k ∉ columns X →
  0 < fuel →
  stepwise_selection verbose initial_list fuel s
    = (Exn (KeyError k), State (heap s ++ [l1 ++ k :: l2]) (trace s)).
Proof.
  intros Ha Hl1 Hk Hfuel. rewrite (stepwise_selection_run_at _ _ _ _ _ _ _ _ _ _ Ha).
  destruct fuel as [|fuel]; [lia|]. cbn [while_val].
  assert (Hfwd : forward_val verbose (l1 ++ k :: l2)
    = ([], l1 ++ k :: l2, Val false) ∨
    forward_val verbose (l1 ++ k :: l2)
    = ([], l1 ++ k :: l2, Exn (KeyError k))).
  { unfold forward_val.
    destruct (excluded_of (l1 ++ k :: l2)) as [|c cs].
    - left. simpl. unfold Series_min. simpl. done.
    - right. cbn [scan_val]. unfold candidate_pvalue, candidate_events.
      rewrite <- app_assoc, <- app_comm_cons.
      by rewrite (getitem_first_missing _ _ _ Hl1 Hk). }
  destruct Hfwd as [-> | ->]; cbn [stop]; [|by rewrite app_nil_r].
  unfold backward_val. rewrite (getitem_first_missing _ _ _ Hl1 Hk).
  cbn [stop]. simpl. by rewrite app_nil_r.
Qed.

(** ** Selecting again from a selection *)

Lemma forward_val_any_verbose v v' cur :
  (forward_val v' cur).1.2 = (forward_val v cur).1.2 ∧
  (forward_val v' cur).2 = (forward_val v cur).2.
Proof.
  destruct (forward_val_verbose cur) as (Hq & _).
  destruct v, v'; rewrite ?Hq; done.
Qed.

Lemma backward_val_any_verbose v v' cur changed :
  (backward_val v' cur changed).1.2 = (backward_val v cur changed).1.2 ∧
  (backward_val v' cur changed).2 = (backward_val v cur changed).2.
Proof.
  destruct (backward_val_verbose cur changed) as (Hq & _).
  destruct v, v'; rewrite ?Hq; done.
Qed.

(** A pass from a list that the loop returned changes nothing and ends
    the loop. *)
Lemma while_val_fixed v v' fuel cur evs ret fuel' :
  while_val v fuel cur = (evs, ret, Val tt) → 0 < fuel' →
  ∃ evs', while_val v' fuel' ret = (evs', ret, Val tt) ∧
    appended evs' = [] ∧ removed evs' = [].
Proof.
  intros Hw Hfuel. destruct fuel' as [|fuel']; [lia|].
  destruct (while_val_last_pass _ _ _ _ _ _ _ _ _ _ Hw)
    as (evs1 & evs2 & Hf & Hb).
  destruct (forward_val_any_verbose v v' ret) as [Hf1 Hf2].
  destruct (backward_val_any_verbose v v' ret false) as [Hb1 Hb2].
  rewrite Hf in Hf1, Hf2. rewrite Hb in Hb1, Hb2. cbn [fst snd] in *.
  cbn [while_val].
  pose proof (forward_val_spec X y OLS threshold_in v' ret) as Hfs.
  destruct (forward_val v' ret) as [[e1 c1] r1]. cbn [fst snd] in *. subst.
  pose proof (backward_val_spec X y OLS threshold_out v' ret false) as Hbs.
  destruct (backward_val v' ret false) as [[e2 c2] r2]. cbn [fst snd] in *.
  subst. cbn [negb]. exists (e1 ++ e2).
  apply forward_effect in Hfs as (_ & _ & Hrem1 & Happ1).
  apply backward_effect in Hbs as (_ & _ & Happ2 & Hrem2).
  split_and!; [done| |].
  - rewrite appended_app, Happ2, app_nil_r.
    destruct Happ1 as [[? _]|(f & _ & Hlen)]; [done|].
    apply (f_equal length) in Hlen. rewrite length_app in Hlen.
    simpl in Hlen. lia.
  - rewrite removed_app, Hrem1. simpl.
    destruct Hrem2 as [[? _]|(f & _ & Hlen)]; [done|].
    apply remove_first_length in Hlen. lia.
Qed.

(** X3: a list the function returned is stable under the function.
    Called again with that list as [initial_list], with the same
    thresholds and whatever [verbose], the function returns after a single
    pass a new list with the same elements in the same order; that pass
    appends nothing and removes nothing. *)
Theorem X3_selecting_again_changes_nothing
    verbose verbose' initial_list fuel fuel' s ret s' :
  stepwise_selection verbose initial_list fuel s = (Val ret, s') →
  0 < fuel' →
  ∃ evs included,
    heap s' !! ret = Some included ∧
    stepwise_selection verbose' ret fuel' s'
      = (Val (length (heap s')),
         State (heap s' ++ [included]) (trace s' ++ evs)) ∧
    appended evs = [] ∧ removed evs = [].
Proof.
  rewrite stepwise_selection_run.
  destruct (while_val verbose fuel _) as [[evs included] [[]| |]] eqn:Hw;
    simpl; [|done..].
  intros [= <- <-] Hfuel.
  destruct (while_val_fixed _ verbose' _ _ _ _ fuel' Hw Hfuel)
    as (evs' & Hw' & Happ & Hrem).
  exists evs', included.
  set (s1 := State (heap s ++ [included]) (trace s ++ evs)).
  assert (Hret : heap s1 !! length (heap s) = Some included)
    by apply lookup_fresh.
  split_and!; [done| |done..].
  by rewrite (stepwise_selection_run_at _ _ _ _ _ _ _ _ _ _ Hret), Hw'.
Qed.

(** ** NaN for a threshold *)

Lemma isnan_true x : isnan x = true → x = nan.
Proof. by destruct x. Qed.

Lemma forward_nan v cur evs cur' r :
  isnan threshold_in = true →
  forward_spec X y OLS threshold_in v cur (evs, cur', r) →
  appended evs = [] ∧ cur' = cur.
Proof.
  intros ->%isnan_true Hs. remember (evs, cur', r) as out eqn:Hout.
  destruct Hs as [f p Hf Hn Hp Hlt Hmin|Hall|k c e Hc Hn He];
    injection Hout as <- <- <-.
  - by rewrite lt_nan_r in Hlt.
  - by destruct (fits_plain cur (excluded_of cur)) as (_ & _ & ? & _).
  - by destruct (fits_plain cur (take k (excluded_of cur)))
      as (_ & _ & ? & _).
Qed.

Lemma backward_nan v cur changed evs cur' r :
  isnan threshold_out = true →
  backward_spec X y OLS threshold_out v cur changed (evs, cur', r) →
  removed evs = [] ∧ cur' = cur.
Proof.
  intros ->%isnan_true Hs. remember (evs, cur', r) as out eqn:Hout.
  destruct Hs as [exog p i f q cur0 Hg Hp Hi Hgt Hmax Hr| | |];
    injection Hout as <- <- <-; [|done..].
  unfold gt in Hgt. by destruct q.
Qed.

(** X4: a threshold that is NaN never fires, because no p-value compares
    below or above NaN.  With [threshold_in] NaN no call ever appends,
    with [threshold_out] NaN no call ever removes, and with both the
    included list is the initial list however the call ends. *)
Theorem X4_nan_threshold_never_fires verbose initial_list initial fuel s :
  heap s !! initial_list = Some initial →
  ∃ evs included,
    trace (stepwise_selection verbose initial_list fuel s).2
      = trace s ++ evs ∧
    heap (stepwise_selection verbose initial_list fuel s).2
      !! length (heap s) = Some included ∧
    (isnan threshold_in = true → appended evs = []) ∧
    (isnan threshold_out = true → removed evs = []) ∧
    (isnan threshold_in = true → isnan threshold_out = true →
     included = initial).
Proof.
  intros Ha. rewrite (stepwise_selection_run_at _ _ _ _ _ _ _ _ _ _ Ha).
  destruct (while_val verbose fuel initial) as [[evs included] r] eqn:Hw.
  exists evs, included. cbn [snd heap trace].
  split; [done|]. split; [apply lookup_fresh|].
  apply (while_val_inv X y OLS threshold_in threshold_out verbose
    (λ pre cur,
       (isnan threshold_in = true → appended pre = []) ∧
       (isnan threshold_out = true → removed pre = []) ∧
       (isnan threshold_in = true → isnan threshold_out = true →
        cur = initial))) with (pre := []) in Hw; [done| | |done].
  - intros pre cur evs1 cur1 r1 (Hi & Ho & Hio) Hs.
    pose proof (forward_effect _ _ _ _ _ _ _ _ _ Hs) as (_ & _ & Hrem & _).
    rewrite appended_app, removed_app, Hrem, app_nil_r. split_and!.
    + intros Hin. destruct (forward_nan _ _ _ _ _ Hin Hs) as [-> _].
      by rewrite Hi.
    + done.
    + intros Hin Hout. destruct (forward_nan _ _ _ _ _ Hin Hs) as [_ ->].
      auto.
  - intros pre cur changed evs1 cur1 r1 (Hi & Ho & Hio) Hs.
    pose proof (backward_effect _ _ _ _ _ _ _ _ _ _ Hs) as (_ & _ & Happ & _).
    rewrite appended_app, removed_app, Happ, app_nil_r. split_and!.
    + done.
    + intros Hout. destruct (backward_nan _ _ _ _ _ _ Hout Hs) as [-> _].
      by rewrite Ho.
    + intros Hin Hout. destruct (backward_nan _ _ _ _ _ _ Hout Hs) as [_ ->].
      auto.
Qed.

(** ** Ties *)

Lemma Series_lookup_pair (s : Series) i f v :
  s.*1 !! i = Some f → s.*2 !! i = Some v → s !! i = Some (f, v).
Proof.
  rewrite !list_lookup_fmap. destruct (s !! i) as [[f' v']|]; [|done].
  simpl. by intros [= ->] [= ->].
Qed.

Lemma Series_lookup_fst (s : Series) i f v :
  s !! i = Some (f, v) → s.*1 !! i = Some f ∧ s.*2 !! i = Some v.
Proof. intros Hi. by rewrite !list_lookup_fmap, Hi. Qed.

(** X5: among candidates that share the lowest p-value, the forward step
    takes the first in the order in which the set of excluded columns is
    enumerated: every candidate enumerated before the one it appends has a
    p-value that is NaN or strictly higher, and no candidate at all has a
    lower one. *)
Theorem X5_forward_takes_first_minimum verbose a cur s s' :
  heap s !! a = Some cur →
  forward_step X y OLS threshold_in verbose a s = (Val true, s') →
  ∃ i f p,
    excluded_of cur !! i = Some f ∧
    heap s' !! a = Some (cur ++ [f]) ∧
    candidate_pvalue cur f = Val p ∧
    (∀ j c q, j < i → excluded_of cur !! j = Some c →
       candidate_pvalue cur c = Val q → isnan q = true ∨ lt p q = true) ∧
    (∀ j c q, excluded_of cur !! j = Some c →
       candidate_pvalue cur c = Val q → lt q p = false).
Proof.
  intros Ha. rewrite (forward_step_run _ _ _ _ _ _ _ _ Ha). unfold forward_val.
  destruct (scan_val cur (excluded_of cur) (Series_new (excluded_of cur)))
    as [evs [new_pval|e|]] eqn:Hs; cbn [fst snd stop]; [|done..].
  destruct (scan_val_new _ _ _ _ _ _ Hs) as (Hidx & _ & Hv).
  destruct (lt (Series_min new_pval) threshold_in) eqn:Hlt; [|done].
  unfold Series_min, Series_argmin, index_at in *.
  destruct (nan_extremum_beats lt lt_asym lt_cotrans lt_nan _ _ Hlt)
    as (i & m & E & Hi & Hmin).
  rewrite E in *. cbn [fmap option_fmap option_map mbind option_bind
    from_option snd fst] in *.
  destruct (new_pval.*1 !! i) as [f|] eqn:Hf; [|done].
  intros [= <-]. exists i, f, m.
  pose proof (Series_lookup_pair _ _ _ _ Hf Hi) as Hfm.
  assert (Hcand : ∀ j c q, excluded_of cur !! j = Some c →
    candidate_pvalue cur c = Val q → new_pval.*2 !! j = Some q).
  { intros j c q Hj Hq. rewrite <- Hidx in Hj.
    apply list_lookup_fmap_Some_1 in Hj as ([c' v] & Hc & Hj).
    simpl in Hc. subst c'.
    rewrite (Hv c v) in Hq by by eapply list_elem_of_lookup_2.
    injection Hq as <-. by apply Series_lookup_fst in Hj as [_ ?]. }
  split_and!.
  - by rewrite <- Hidx.
  - by eapply heap_after.
  - apply Hv. by eapply list_elem_of_lookup_2.
  - intros j c q Hlt' Hj Hq. destruct (isnan q) eqn:Hnan; [by left|right].
    eapply (nan_extremum_first lt); eauto.
  - intros j c q Hj Hq. apply Hmin.
    eapply list_elem_of_lookup_2. eauto.
Qed.

(** X6: when the fit on the included list succeeds and some coefficient
    has a p-value above [threshold_out], the backward step does remove,
    and among the coefficients that share the highest p-value it takes
    the first in the order of the list: every coefficient before it has a
    p-value that is NaN or strictly lower, and none has a higher one.
    What leaves the list is the first occurrence of that name. *)
Theorem X6_backward_takes_first_maximum verbose a cur changed s exog p :
  heap s !! a = Some cur →
  getitem X cur = Val exog →
  OLS y exog = Some p →
  (∃ g q, (g, q) ∈ pvalues_of exog p ∧ gt q threshold_out = true) →
  ∃ i f q cur',
    pvalues_of exog p !! i = Some (f, q) ∧
    remove_first f cur = Some cur' ∧
    (backward_step X y OLS threshold_out verbose a changed s).1 = Val true ∧
    heap (backward_step X y OLS threshold_out verbose a changed s).2 !! a
      = Some cur' ∧
    (∀ j g q', j < i → pvalues_of exog p !! j = Some (g, q') →
       isnan q' = true ∨ gt q q' = true) ∧
    (∀ g q', (g, q') ∈ pvalues_of exog p → gt q' q = false).
Proof.
  intros Ha Hg Hp (g & q0 & Hin & Hq0).
  rewrite (backward_step_run _ _ _ _ _ _ _ _ _ Ha). unfold backward_val.
  rewrite Hg, Hp.
  destruct (gt (Series_max (pvalues_of exog p)) threshold_out) eqn:Hgt.
  2: { by rewrite (Series_max_not_above _ _ _ _ Hgt Hin) in Hq0. }
  unfold Series_max, Series_argmax, index_at in *.
  destruct (nan_extremum_beats gt gt_asym gt_cotrans gt_nan _ _ Hgt)
    as (i & m & E & Hi & Hmax).
  rewrite E in *. cbn [fmap option_fmap option_map mbind option_bind
    from_option snd fst] in *.
  destruct ((pvalues_of exog p).*1 !! i) as [f|] eqn:Hf.
  2: { apply list_lookup_fmap_Some_1 in Hi as ([f' v] & _ & Hi).
       by rewrite list_lookup_fmap, Hi in Hf. }
  pose proof (Series_lookup_pair _ _ _ _ Hf Hi) as Hfm.
  assert (Hrem : is_Some (remove_first f cur)).
  { apply remove_first_elem_of.
    apply pvalues_of_lookup in Hfm as (col & Hcol & _).
    apply list_elem_of_lookup_2 in Hcol.
    by apply (getitem_Val _ _ _ Hg) in Hcol as [_ ?]. }
  destruct Hrem as [cur' Hcur']. rewrite Hcur'. cbn [fst snd].
  exists i, f, m, cur'. split_and!; [done..| | |].
  - by eapply heap_after.
  - intros j g' q' Hlt Hj. destruct (isnan q') eqn:Hnan; [by left|right].
    apply Series_lookup_fst in Hj as [_ Hj].
    eapply (nan_extremum_first gt); eauto.
  - intros g' q' Hin'. apply Hmax.
    by apply (list_elem_of_fmap_2 snd) in Hin'.
Qed.

(** ** Calls that cannot fail *)

(** X7: a call on well-formed arguments never raises.  When no label
    occurs twice among the columns of [X], every name of the initial list
    is a column of [X], and the fit accepts every design the call can
    hand it, the call returns or runs on; no step has an exception of its
    own, whatever the thresholds. *)
Theorem X7_well_formed_call_never_raises verbose initial_list initial fuel
    s e :
  heap s !! initial_list = Some initial →
  NoDup (columns X) →
  (∀ k, k ∈ initial → k ∈ columns X) →
  (∀ l exog, fit_of X l exog → is_Some (OLS y exog)) →
  (stepwise_selection verbose initial_list fuel s).1 ≠ Exn e.
Proof.
  intros Ha Hnd Hsub Hfit.
  rewrite (stepwise_selection_run_at _ _ _ _ _ _ _ _ _ _ Ha).
  destruct (while_val verbose fuel initial) as [[evs cur'] [[]|e'|]] eqn:Hw;
    simpl; [done| |done].
  intros [= <-].
  apply (while_val_Exn X y OLS threshold_in threshold_out verbose
           (λ l, ∀ k, k ∈ l → k ∈ columns X))
    in Hw as (l & evs1 & Hl & Hstep).
  - destruct Hstep as [Hs|[changed Hs]].
    + inversion Hs as [| |k c e0 Hc Hn He]; subst.
      destruct (candidate_pvalue_Exn _ _ _ _ _ _ Hc Hn He)
        as [(k' & _ & Hk & Hx)|[(_ & exog & Hf & Hnone)|[_ ?]]].
      * by apply Hx, Hl.
      * destruct (Hfit _ _ Hf) as [p Hp]. congruence.
      * done.
    + inversion Hs as [| |k Hg Hk Hx|exog Hg Hp]; subst.
      * by apply Hx, Hl.
      * destruct (Hfit cur' exog) as [p' Hp']; [by left | congruence].
  - intros cur evs1 cur1 r Hcur Hs. inversion Hs; subst; [|done..].
    intros k [?|Hk]%elem_of_app; [auto|].
    by apply list_elem_of_singleton in Hk as ->.
  - intros cur changed evs1 cur1 r Hcur Hs. inversion Hs; subst; [|done..].
    intros k Hk. apply Hcur.
    eapply sublist_subseteq; [by eapply remove_first_sublist | done].
  - done.
Qed.

(** ** The fits of a pass *)

Lemma fitted_app evs1 evs2 : fitted (evs1 ++ evs2) = fitted evs1 ++ fitted evs2.
Proof. apply omap_app. Qed.

Lemma fitted_append verbose f msg :
  fitted (list_append f :: printed verbose msg) = [].
Proof. by destruct verbose. Qed.

Lemma fitted_remove verbose exog f msg :
  fitted (OLS_fit exog :: list_remove f :: printed verbose msg) = [exog].
Proof. by destruct verbose. Qed.

(** A forward step that returns has had a p-value for every candidate. *)
Lemma forward_val_all verbose cur evs cur' b :
  forward_val verbose cur = (evs, cur', Val b) →
  ∀ c, c ∈ columns X → c ∉ cur → ∃ q, candidate_pvalue cur c = Val q.
Proof.
  unfold forward_val.
  destruct (scan_val cur (excluded_of cur) (Series_new (excluded_of cur)))
    as [evs0 [new_pval|e|]] eqn:Hs; cbn [fst snd stop]; [|done..].
  intros _ c Hc Hn. destruct (scan_val_new _ _ _ _ _ _ Hs) as (Hidx & _ & Hv).
  assert (Hin : c ∈ new_pval.*1).
  { rewrite Hidx. by apply elem_of_excluded_of. }
  apply list_elem_of_fmap in Hin as ([c' v] & -> & Hin).
  exists v. by apply Hv.
Qed.

Lemma fitted_candidates cur cs :
  (∀ c, c ∈ cs → ∃ q, candidate_pvalue cur c = Val q) →
  Forall2 (λ c exog, getitem X (cur ++ [c]) = Val exog) cs
    (fitted (cs ≫= candidate_events cur)).
Proof.
  induction cs as [|c cs IH]; intros Hcs; [constructor|].
  change ((c :: cs) ≫= candidate_events cur)
    with (candidate_events cur c ++ (cs ≫= candidate_events cur)).
  destruct (Hcs c) as [q Hq]; [left|].
  apply candidate_pvalue_Val in Hq as (exog & _ & Hg & _).
  unfold candidate_events at 1. rewrite Hg. simpl. constructor; [done|].
  apply IH. intros c' Hc'. apply Hcs. by right.
Qed.

(** X8: the fits of one pass of the loop.  A pass whose two steps return
    has called the fit once for each column of [X] outside the included
    list, in the order in which the set of those columns is enumerated
    and each time on the included columns with that one appended, and
    then once more, on the included columns as the forward step left
    them. *)
Theorem X8_fits_of_a_pass verbose a cur s b s1 b' s2 :
  heap s !! a = Some cur →
  forward_step X y OLS threshold_in verbose a s = (Val b, s1) →
  backward_step X y OLS threshold_out verbose a b s1 = (Val b', s2) →
  ∃ evs exogs cur1 exog,
    trace s2 = trace s ++ evs ∧
    fitted evs = exogs ++ [exog] ∧
    NoDup (excluded_of cur) ∧
    (∀ c, c ∈ excluded_of cur ↔ c ∈ columns X ∧ c ∉ cur) ∧
    Forall2 (λ c e, getitem X (cur ++ [c]) = Val e) (excluded_of cur) exogs ∧
    heap s1 !! a = Some cur1 ∧
    getitem X cur1 = Val exog.
Proof.
  intros Ha. rewrite (forward_step_run _ _ _ _ _ _ _ _ Ha).
  pose proof (forward_val_spec X y OLS threshold_in verbose cur) as Hs.
  destruct (forward_val verbose cur) as [[evs1 cur1] r1] eqn:Hf.
  intros [= -> <-].
  pose proof (forward_val_all _ _ _ _ _ Hf) as Hall.
  assert (Ha1 : heap (after s a cur1 evs1) !! a = Some cur1).
  { by eapply heap_after. }
  rewrite (backward_step_run _ _ _ _ _ _ _ _ _ Ha1).
  pose proof (backward_val_spec X y OLS threshold_out verbose cur1 b) as Hb.
  destruct (backward_val verbose cur1 b) as [[evs2 cur2] r2].
  intros [= -> <-].
  assert (Hfits : fitted evs1 = fitted (excluded_of cur ≫= candidate_events cur)).
  { remember (Val b) as r1 eqn:Hr1.
    remember (evs1, cur1, r1) as out eqn:Hout.
    destruct Hs as [f p Hf' Hn Hp Hlt Hmin|Hk|k c e Hc Hn He];
      injection Hout as <- <- <-; [|done..].
    by rewrite fitted_app, fitted_append, app_nil_r. }
  assert (Hfit2 : ∃ exog, getitem X cur1 = Val exog ∧ fitted evs2 = [exog]).
  { remember (Val b') as r2 eqn:Hr2.
    remember (evs2, cur2, r2) as out eqn:Hout.
    destruct Hb as [exog p i f q cur0 Hg Hp Hi Hgt Hmax Hr|exog p Hg Hp Hk| |];
      injection Hout as <- <- <-; [| |done..]; exists exog;
      (split; [done|]).
    - apply fitted_remove.
    - done. }
  destruct Hfit2 as (exog & Hg & Hfit2).
  exists (evs1 ++ evs2), (fitted evs1), cur1, exog. cbn [trace after].
  split_and!.
  - by rewrite app_assoc.
  - by rewrite fitted_app, Hfit2.
  - apply NoDup_list_of_set.
  - intros c. apply elem_of_excluded_of.
  - rewrite Hfits. apply fitted_candidates.
    intros c [Hc Hn]%elem_of_excluded_of. by apply Hall.
  - done.
  - done.
Qed.

(** ** Counting the changes *)

Lemma while_val_count verbose fuel cur evs cur' r :
  while_val verbose fuel cur = (evs, cur', r) →
  length cur' + length (removed evs) = length cur + length (appended evs) ∧
  (length (appended evs) ≤ fuel)%nat ∧ (length (removed evs) ≤ fuel)%nat.
Proof.
  revert cur evs cur' r. induction fuel as [|fuel IH]; intros cur evs cur' r.
  { simpl. intros [= <- <- <-]. simpl. lia. }
  cbn [while_val].
  pose proof (forward_val_spec X y OLS threshold_in verbose cur) as Hf.
  destruct (forward_val verbose cur) as [[evs1 cur1] r1].
  apply forward_effect in Hf as (_ & _ & Hrem1 & Happ1).
  assert (H1 : length cur1 = length cur + length (appended evs1) ∧
               (length (appended evs1) ≤ 1)%nat).
  { destruct Happ1 as [[-> ->]|(f & -> & ->)]; [simpl; lia|].
    rewrite length_app. simpl. lia. }
  destruct r1 as [changed1| |]; cbn [stop].
  2, 3: intros [= <- <- <-]; rewrite Hrem1; simpl; lia.
  pose proof (backward_val_spec X y OLS threshold_out verbose cur1 changed1)
    as Hb.
  destruct (backward_val verbose cur1 changed1) as [[evs2 cur2] r2].
  apply backward_effect in Hb as (_ & _ & Happ2 & Hrem2).
  assert (H2 : length cur2 + length (removed evs2) = length cur1 ∧
               (length (removed evs2) ≤ 1)%nat).
  { destruct Hrem2 as [[-> ->]|(f & -> & Hr)]; [simpl; lia|].
    apply remove_first_length in Hr. simpl. lia. }
  assert (H12 :
    length cur2 + length (removed (evs1 ++ evs2))
      = length cur + length (appended (evs1 ++ evs2)) ∧
    (length (appended (evs1 ++ evs2)) ≤ 1)%nat ∧
    (length (removed (evs1 ++ evs2)) ≤ 1)%nat).
  { rewrite appended_app, removed_app, Hrem1, Happ2, app_nil_r. simpl. lia. }
  destruct r2 as [changed2| |]; cbn [stop].
  2, 3: intros [= <- <- <-]; lia.
  destruct changed2; cbn [negb]; [|intros [= <- <- <-]; lia].
  destruct (while_val verbose fuel cur2) as [[evs3 cur3] r3] eqn:Hw.
  intros [= <- <- <-]. apply IH in Hw. rewrite app_assoc.
  rewrite (appended_app (evs1 ++ evs2)), (removed_app (evs1 ++ evs2)),
    !length_app.
  lia.
Qed.

(** X9: the length of the included list is accounted for by the trace:
    it is the length of the initial list plus the number of appends less
    the number of removes, however the call ends.  A pass appends at most
    once and removes at most once, so a call of [fuel] passes appends at
    most [fuel] names and removes at most [fuel]. *)
Theorem X9_length_follows_the_changes verbose initial_list initial fuel s :
  heap s !! initial_list = Some initial →
  ∃ evs included,
    trace (stepwise_selection verbose initial_list fuel s).2
      = trace s ++ evs ∧
    heap (stepwise_selection verbose initial_list fuel s).2
      !! length (heap s) = Some included ∧
    length included + length (removed evs)
      = length initial + length (appended evs) ∧
    (length (appended evs) ≤ fuel)%nat ∧
    (length (removed evs) ≤ fuel)%nat.
Proof.
  intros Ha. rewrite (stepwise_selection_run_at _ _ _ _ _ _ _ _ _ _ Ha).
  destruct (while_val verbose fuel initial) as [[evs included] r] eqn:Hw.
  exists evs, included. cbn [snd heap trace].
  split; [done|]. split; [apply lookup_fresh|].
  by eapply while_val_count.
Qed.

(** ** Nothing left to add *)

Lemma excluded_of_all cur :
  (∀ c, c ∈ columns X → c ∈ cur) → excluded_of cur = [].
Proof.
  intros Hall. apply elem_of_nil_inv. intros c Hc.
  apply elem_of_excluded_of in Hc as [Hc Hn]. by apply Hn, Hall.
Qed.

(** X10: when every column of [X] is on the included list, the forward
    step calls no fit and changes nothing: the minimum of the empty series
    of p-values is NaN, which is below no threshold. *)
Theorem X10_nothing_left_to_add verbose a cur s :
  heap s !! a = Some cur →
  (∀ c, c ∈ columns X → c ∈ cur) →
  forward_step X y OLS threshold_in verbose a s = (Val false, s).
Proof.
  intros Ha Hall. rewrite (forward_step_run _ _ _ _ _ _ _ _ Ha).
  unfold forward_val. rewrite (excluded_of_all _ Hall).
  cbn [scan_val fst snd].
  change (lt (Series_min (Series_new [])) threshold_in) with false.
  cbv iota. by rewrite (after_nil _ _ _ Ha).
Qed.

End further.

(** ** The order in which a set is enumerated *)

Section orders.

Context (X : DataFrame) (y : column).
Context (OLS : column → DataFrame → option (nat → float)).
Context (threshold_in threshold_out : float).

(** Two ways to enumerate a set. *)
Context (o1 o2 : SetOrder).

(** No two candidates for the same list are both below [threshold_in]
    with p-values of which neither is the lower. *)
Hypothesis no_ties : ∀ cur c c' p p',
  candidate_pvalue X y OLS cur c = Val p →
  candidate_pvalue X y OLS cur c' = Val p' →
  lt p threshold_in = true → lt p' threshold_in = true →
  c ≠ c' → lt p p' = true ∨ lt p' p = true.

Lemma excluded_of_order cur :
  excluded_of (H := o2) X cur ≡ₚ excluded_of (H := o1) X cur.
Proof.
  apply NoDup_Permutation; [apply NoDup_list_of_set..|].
  intros c. by rewrite !elem_of_excluded_of.
Qed.

Lemma same_up_to_order_app e1' e1 e2' e2 :
  same_up_to_order e1' e1 → same_up_to_order e2' e2 →
  same_up_to_order (e1' ++ e2') (e1 ++ e2).
Proof.
  intros (Hp1 & Ha1 & Hr1 & Hl1) (Hp2 & Ha2 & Hr2 & Hl2).
  unfold same_up_to_order.
  rewrite !appended_app, !removed_app, !printed_lines_app.
  split_and!; [by rewrite Hp1, Hp2|congruence..].
Qed.

Lemma same_up_to_order_refl evs : same_up_to_order evs evs.
Proof. by split_and!. Qed.

Lemma fits_order cur :
  same_up_to_order
    (excluded_of (H := o2) X cur ≫= candidate_events X cur)
    (excluded_of (H := o1) X cur ≫= candidate_events X cur).
Proof.
  destruct (fits_plain X cur (excluded_of (H := o1) X cur))
    as (_ & Hl1 & Ha1 & Hr1).
  destruct (fits_plain X cur (excluded_of (H := o2) X cur))
    as (_ & Hl2 & Ha2 & Hr2).
  split_and!; [|congruence..].
  by rewrite (excluded_of_order cur).
Qed.

Lemma forward_val_order verbose cur evs cur' b :
  forward_val (H := o1) X y OLS threshold_in verbose cur
    = (evs, cur', Val b) →
  ∃ evs',
    forward_val (H := o2) X y OLS threshold_in verbose cur
      = (evs', cur', Val b) ∧
    same_up_to_order evs' evs.
Proof.
  intros Hf1.
  pose proof (forward_val_all _ _ _ _ _ _ _ _ _ Hf1) as Hall.
  pose proof (forward_val_spec (H := o1) X y OLS threshold_in verbose cur)
    as Hs1.
  rewrite Hf1 in Hs1.
  pose proof (forward_val_spec (H := o2) X y OLS threshold_in verbose cur)
    as Hs2.
  destruct (forward_val (H := o2) X y OLS threshold_in verbose cur)
    as [[evs2 cur2] r2].
  remember (Val b) as r1 eqn:Hr1.
  remember (evs, cur', r1) as out1 eqn:Hout1.
  remember (evs2, cur2, r2) as out2 eqn:Hout2.
  destruct Hs1 as [f1 p1 Hf Hn Hp Hlt Hmin|Hkeep|k c e Hc Hn He];
    injection Hout1 as <- <- <-; [| |done].
  - injection Hr1 as <-.
    destruct Hs2 as [f2 p2 Hf2 Hn2 Hp2 Hlt2 Hmin2|Hkeep2|k c e Hc Hn' He];
      injection Hout2 as <- <- <-.
    + assert (f2 = f1) as ->.
      { destruct (decide (f2 = f1)) as [|Hne]; [done|].
        pose proof (Hmin _ _ Hf2 Hn2 Hp2) as H21.
        pose proof (Hmin2 _ _ Hf Hn Hp) as H12.
        destruct (no_ties _ _ _ _ _ Hp2 Hp Hlt2 Hlt Hne); congruence. }
      assert (p2 = p1) as -> by congruence.
      eexists. split; [done|].
      apply same_up_to_order_app;
        [apply fits_order | apply same_up_to_order_refl].
    + destruct (Hkeep2 _ Hf Hn) as (q & Hq & Hq'). congruence.
    + destruct (Hall _ Hc Hn') as [q Hq]. congruence.
  - injection Hr1 as <-.
    destruct Hs2 as [f2 p2 Hf2 Hn2 Hp2 Hlt2 Hmin2|Hkeep2|k c e Hc Hn' He];
      injection Hout2 as <- <- <-.
    + destruct (Hkeep _ Hf2 Hn2) as (q & Hq & Hq'). congruence.
    + eexists. split; [done|]. apply fits_order.
    + destruct (Hall _ Hc Hn') as [q Hq]. congruence.
Qed.

Lemma while_val_order verbose fuel cur evs cur' :
  while_val (H := o1) X y OLS threshold_in threshold_out verbose fuel cur
    = (evs, cur', Val tt) →
  ∃ evs',
    while_val (H := o2) X y OLS threshold_in threshold_out verbose fuel cur
      = (evs', cur', Val tt) ∧
    same_up_to_order evs' evs.
Proof.
  revert cur evs cur'. induction fuel as [|fuel IH]; intros cur evs cur';
    [done|].
  cbn [while_val].
  destruct (forward_val (H := o1) X y OLS threshold_in verbose cur)
    as [[evs1 cur1] [b1| |]] eqn:Hf1; cbn [stop]; [|done..].
  destruct (forward_val_order _ _ _ _ _ Hf1) as (evs1' & -> & Hp1).
  destruct (backward_val X y OLS threshold_out verbose cur1 b1)
    as [[evs2 cur2] [b2| |]]; cbn [stop]; [|done..].
  destruct b2; cbn [negb].
  - destruct (while_val (H := o1) X y OLS threshold_in threshold_out verbose
                fuel cur2) as [[evs3 cur3] r3] eqn:Hw.
    intros [= <- <- ->]. destruct (IH _ _ _ Hw) as (evs3' & -> & Hp3).
    eexists. split; [done|].
    apply same_up_to_order_app; [done|].
    apply same_up_to_order_app; [apply same_up_to_order_refl | done].
  - intros [= <- <-]. eexists. split; [done|].
    apply same_up_to_order_app; [done | apply same_up_to_order_refl].
Qed.

(** X11: the order in which Python enumerates the set of excluded columns
    matters only for ties.  When no two candidates are both significant
    with p-values of which neither is the lower, a call that returns
    under one order returns the same list under any other, with the same
    appends, removes and printed lines; only the fits of a forward step
    come in another order. *)
Theorem X11_set_order_matters_only_for_ties verbose initial_list fuel s
    ret s1 :
  stepwise_selection (H := o1) X y OLS threshold_in threshold_out verbose
    initial_list fuel s = (Val ret, s1) →
  ∃ s2 evs1 evs2,
    stepwise_selection (H := o2) X y OLS threshold_in threshold_out verbose
      initial_list fuel s = (Val ret, s2) ∧
    heap s2 = heap s1 ∧
    trace s1 = trace s ++ evs1 ∧
    trace s2 = trace s ++ evs2 ∧
    same_up_to_order evs2 evs1.
Proof.
  rewrite !stepwise_selection_run.
  destruct (while_val (H := o1) X y OLS threshold_in threshold_out verbose
              fuel _) as [[evs cur'] [[]| |]] eqn:Hw; simpl; [|done..].
  intros [= <- <-].
  destruct (while_val_order _ _ _ _ _ Hw) as (evs' & -> & Hp).
  simpl. eexists _, evs, evs'. split_and!; done.
Qed.

End orders.

(** ** The script *)

Section script.

Context (OLS : column → DataFrame → option (nat → float)).
Context `{SetOrder}.

Lemma ffill_from_length last col : length (ffill_from last col) = length col.
Proof.
  revert last. induction col as [|v col IH]; intros last; simpl; [done|].
  destruct (isnan v); simpl; by rewrite IH.
Qed.

Lemma ffill_from_present last col i v :
  col !! i = Some v → isnan v = false → ffill_from last col !! i = Some v.
Proof.
  revert last i. induction col as [|w col IH]; intros last [|i]; simpl;
    try done.
  - intros [= ->] ->. done.
  - intros Hi Hv. destruct (isnan w); simpl; by apply IH.
Qed.

Lemma ffill_from_missing last col i v :
  col !! S i = Some v → isnan v = true →
  ffill_from last col !! S i = ffill_from last col !! i.
Proof.
  revert last i. induction col as [|w col IH]; intros last i; [done|].
  destruct col as [|w' col]; [done|]. destruct i as [|i].
  - simpl. intros [= ->] Hv. rewrite Hv.
    destruct (isnan w) eqn:Hw; simpl; [|done].
    apply isnan_true in Hw, Hv. subst. by destruct last.
  - intros Hi Hv. specialize (IH (if isnan w then last else Some w) i Hi Hv).
    simpl in *. by destruct (isnan w).
Qed.

Lemma ffill_from_Some w col v :
  isnan w = false → v ∈ ffill_from (Some w) col → isnan v = false.
Proof.
  revert w. induction col as [|u col IH]; intros w Hw; simpl.
  { by intros ?%elem_of_nil. }
  destruct (isnan u) eqn:Hu; simpl.
  - intros [->|Hin]%elem_of_cons; [done|]. by eapply IH.
  - intros [->|Hin]%elem_of_cons; [done|]. by eapply IH.
Qed.

(** X12: forward filling keeps the labels and the number of rows, keeps
    every value that is present, and gives a missing value the filled
    value of the row above; a first row is never touched. *)
Theorem X12_ffill_takes_the_value_above (df : DataFrame) (col : column) :
  columns (fillna_ffill df) = columns df ∧
  (∀ k, (k, col) ∈ df → (k, ffill col) ∈ fillna_ffill df) ∧
  length (ffill col) = length col ∧
  ffill col !! 0 = col !! 0 ∧
  (∀ i v, col !! i = Some v → isnan v = false → ffill col !! i = Some v) ∧
  (∀ i v, col !! S i = Some v → isnan v = true →
     ffill col !! S i = ffill col !! i).
Proof.
  split_and!.
  - unfold columns, fillna_ffill. rewrite <- list_fmap_compose.
    apply list_fmap_ext. by intros i [k c] _.
  - intros k Hin. by apply (list_elem_of_fmap_2 (prod_map id ffill)) in Hin.
  - apply ffill_from_length.
  - unfold ffill. destruct col as [|v col]; [done|]. simpl.
    by destruct (isnan v).
  - intros i v. apply ffill_from_present.
  - intros i v. apply ffill_from_missing.
Qed.

(** X13: after forward filling a column has no missing value exactly when
    it is empty or its first row is present: gaps at the top of a column
    survive the fill. *)
Theorem X13_ffill_leaves_leading_gaps (col : column) :
  (∀ v, v ∈ ffill col → isnan v = false) ↔
  (∀ v, col !! 0 = Some v → isnan v = false).
Proof.
  unfold ffill. destruct col as [|u col]; simpl.
  { split; [done|]. by intros _ v ?%elem_of_nil. }
  split.
  - intros Hall v [= <-]. destruct (isnan u) eqn:Hu; [|done].
    simpl in Hall. rewrite <- Hu. apply Hall. left.
  - intros Hu v. rewrite (Hu u eq_refl).
    intros [->|Hin]%elem_of_cons; [by apply Hu|].
    eapply ffill_from_Some; [|done]. by apply Hu.
Qed.

Lemma getitem_cons_other (t : name * column) (X : DataFrame) cols :
  t.1 ∉ cols → getitem (t :: X) cols = getitem X cols.
Proof.
  induction cols as [|c cols IH]; intros Hn; simpl; [done|].
  rewrite filter_cons, decide_False, IH.
  - done.
  - intros ?. apply Hn. by right.
  - simpl. intros Ht. apply Hn. rewrite Ht. left.
Qed.

(** X14: when the selection on line 62 returns, the rest of the script
    cannot fail, provided the label of the target column is not also the
    label of a candidate.  Then the target is not among the selected
    names, [data.loc[:, selected_feature]] is the very design of the last
    fit the selection made, so the final fit succeeds, and the model the
    script reports has no p-value above 0.05. *)
Theorem X14_script_reports_the_last_fit data target X fuel s ret :
  fillna_ffill data = target :: X →
  (target.1 ∉ columns X) →
  (stepwise_selection X target.2 OLS lit_0_01 lit_0_05 true
     (length (heap s)) fuel (def_stepwise_selection s).2).1 = Val ret →
  ∃ included exog p s',
    script OLS data fuel s = (inr (Val (ret, pvalues_of exog p)), s') ∧
    heap s' !! ret = Some included ∧
    (target.1 ∉ included) ∧
    getitem X included = Val exog ∧
    getitem (target :: X) included = Val exog ∧
    OLS target.2 exog = Some p ∧
    (∀ f q, (f, q) ∈ pvalues_of exog p → gt q lit_0_05 = false).
Proof.
  intros Hdata Htarget. unfold script. rewrite Hdata. unfold script_body.
  rewrite bind_run, stepwise_selection_run.
  destruct (while_val _ _ _ _ _ _ fuel _) as [[evs included] [[]| |]] eqn:Hw;
    simpl; [|done..].
  intros [= <-].
  destruct (while_val_last_pass _ _ _ _ _ _ _ _ _ _ Hw)
    as (evs1 & evs2 & _ & Hb).
  destruct (backward_val_false _ _ _ _ _ _ _ _ _ Hb)
    as (_ & _ & exog & p & Hg & Hp & Hall).
  assert (Hn : target.1 ∉ included).
  { intros Hin. apply Htarget.
    destruct (getitem_Val _ _ _ Hg) as [Hcols Hlab].
    apply Hlab, list_elem_of_fmap in Hin as ([k v] & Hk & Hin).
    destruct (Hcols _ _ Hin) as [HX _]. rewrite Hk.
    by apply (list_elem_of_fmap_2 fst) in HX. }
  exists included, exog, p,
    (State ((heap s ++ [[]]) ++ [included])
       ((trace s ++ evs) ++ [OLS_fit exog])).
  split_and!; [|apply lookup_fresh|done|done| |done|done].
  - rewrite bind_run, (list_get_run _ included) by apply lookup_fresh.
    rewrite bind_run. unfold lift.
    rewrite (getitem_cons_other _ _ _ Hn), Hg.
    rewrite bind_run, sm_OLS_fit_pvalues_run, Hp. done.
  - by rewrite getitem_cons_other.
Qed.

End script.

(** * The theorems at work on the small data set *)

Import Demo.

#[local] Existing Instance Demo.order.

(** [stepwise_selection(X, y)] with the defaults: [a] is added, [b] is
    added, [a] is dropped, and [["b"]] is returned at a new address. *)
Example run_defaults :
  stepwise_selection X y OLS lit_0_01 lit_0_05 true 0 5 store
  = (Val 3, (stepwise_selection X y OLS lit_0_01 lit_0_05 true 0 5 store).2)
  ∧ heap (stepwise_selection X y OLS lit_0_01 lit_0_05 true 0 5 store).2
    = [[]; ["a"; "b"]; ["a"]; ["b"]]
  ∧ appended
      (trace (stepwise_selection X y OLS lit_0_01 lit_0_05 true 0 5 store).2)
    = ["a"; "b"]
  ∧ removed
      (trace (stepwise_selection X y OLS lit_0_01 lit_0_05 true 0 5 store).2)
    = ["a"].
Proof. by vm_compute. Qed.

(** The list the default call returns, [["b"]], is a fixed point. *)
Lemma C1_witness :
  stepwise_selection X y OLS lit_0_01 lit_0_05 true 0 5 store
    = (Val 3, (stepwise_selection X y OLS lit_0_01 lit_0_05 true 0 5 store).2)
  ∧ ∃ included,
      heap (stepwise_selection X y OLS lit_0_01 lit_0_05 true 0 5 store).2
        !! 3 = Some included ∧
      fixed_point X y OLS lit_0_01 lit_0_05 included.
Proof.
  split; [by vm_compute|].
  apply (C1_returned_list_is_fixed_point X y OLS lit_0_01 lit_0_05 true
           0 5 store).
  by vm_compute.
Defined.

(** C3 as stated fails: with [threshold_in = threshold_out = 0.01] the
    call raises nothing.  It runs three passes, in which it appends [a]
    and [b] and removes [a], and returns [["b"]]. *)
Lemma C3_counterexample :
  SFleb lit_0_01 lit_0_01 = true ∧
  (stepwise_selection X y OLS lit_0_01 lit_0_01 true 0 5 store).1 = Val 3 ∧
  heap (stepwise_selection X y OLS lit_0_01 lit_0_01 true 0 5 store).2 !! 3
    = Some ["b"] ∧
  appended
    (trace (stepwise_selection X y OLS lit_0_01 lit_0_01 true 0 5 store).2)
    = ["a"; "b"].
Proof. by vm_compute. Qed.

(** With [threshold_in = 0.05 >= threshold_out = 0.01], no column and the
    fit that rejects an empty design, the call fails with the error of
    the fit. *)
Lemma C3_witness :
  SFleb lit_0_01 lit_0_05 = true ∧
  heap store !! 0 = Some [] ∧
  stepwise_selection no_columns y OLS lit_0_05 lit_0_01 true 0 5 store
    = (Exn FitError,
       (stepwise_selection no_columns y OLS lit_0_05 lit_0_01 true 0 5
          store).2) ∧
  ((∃ k, FitError = KeyError k ∧ k ∈ [] ∧ k ∉ columns no_columns) ∨
   (FitError = FitError ∧
    ∃ l exog, fit_of no_columns l exog ∧ OLS y exog = None) ∨
   (FitError = ValueError ∧ ¬ NoDup (columns no_columns))).
Proof.
  split_and!; [by vm_compute..|].
  apply (C3_thresholds_are_not_checked no_columns y OLS lit_0_05 lit_0_01
           true 0 [] 5 store FitError
           (stepwise_selection no_columns y OLS lit_0_05 lit_0_01 true 0 5
              store).2); by vm_compute.
Defined.

(** C4 as stated fails: started from [["a"; "b"]], the call never appends
    (the one candidate it ever has, [a] beside [b], has p-value 0.5), yet
    it returns [["b"]], not the initial list: the first backward step
    removes [a]. *)
Lemma C4_counterexample :
  heap store !! 1 = Some ["a"; "b"] ∧
  (stepwise_selection X y OLS lit_0_01 lit_0_05 true 1 5 store).1 = Val 3 ∧
  heap (stepwise_selection X y OLS lit_0_01 lit_0_05 true 1 5 store).2 !! 3
    = Some ["b"] ∧
  appended
    (trace (stepwise_selection X y OLS lit_0_01 lit_0_05 true 1 5 store).2)
    = [] ∧
  excluded_of X ["a"; "b"] = [] ∧
  excluded_of X ["b"] = ["a"] ∧
  candidate_pvalue X y OLS ["b"] "a" = Val half ∧
  lt half lit_0_01 = false ∧
  ["b"] ≠ ["a"; "b"].
Proof. by vm_compute. Qed.


(** Started from [["a"]], the included list is valid when the call is
    done. *)
Lemma C5_witness :
  heap store !! 2 = Some ["a"] ∧
  valid X ["a"] ∧
  ∃ included,
    heap (stepwise_selection X y OLS lit_0_01 lit_0_05 true 2 5 store).2
      !! length (heap store) = Some included ∧
    valid X included.
Proof.
  assert (Hv : valid X ["a"]).
  { split; [apply NoDup_singleton|].
    intros k ->%list_elem_of_singleton. by left. }
  split_and!; [done..|].
  destruct (C5_included_stays_valid X y OLS lit_0_01 lit_0_05 true
              2 ["a"] store eq_refl Hv) as [Hrun _].
  destruct (Hrun 5) as (included & Hheap & Hvalid & _).
  exists included. split; assumption.
Defined.


(** The default call returns what its appends and removes leave of the
    empty list. *)
Lemma C8_witness :
  heap store !! 0 = Some [] ∧
  stepwise_selection X y OLS lit_0_01 lit_0_05 true 0 5 store
    = (Val 3, (stepwise_selection X y OLS lit_0_01 lit_0_05 true 0 5 store).2)
  ∧ ∃ evs included,
      trace (stepwise_selection X y OLS lit_0_01 lit_0_05 true 0 5 store).2
        = trace store ++ evs ∧
      replay evs [] = Some included ∧
      ∃ kept added, included = kept ++ added ∧
        kept `sublist_of` [] ∧ added `sublist_of` appended evs.
Proof.
  split_and!; [by vm_compute..|].
  destruct (C8_historical_insertion_order X y OLS lit_0_01 lit_0_05 true
              0 [] 5 store 3
              (stepwise_selection X y OLS lit_0_01 lit_0_05 true 0 5 store).2)
    as (evs & included & Htrace & _ & Hreplay & Hparts & _);
    [vm_compute; reflexivity..|].
  exists evs, included. split_and!; assumption.
Defined.



(** The call started from [["a"; "b"]] holds [["a"; "b"]] and then
    [["b"]].  On both the fit succeeds and no column outside has a
    p-value below 0.01 ([a] beside [b] has 0.5), so the call returns a
    part of the initial list, [["b"]], and appends nothing. *)
Lemma C4_witness :
  heap store !! 1 = Some ["a"; "b"] ∧
  length ["a"; "b"] < 5 ∧
  ∃ ret s' included,
    stepwise_selection X y OLS lit_0_01 lit_0_05 true 1 5 store
      = (Val ret, s') ∧
    heap s' !! ret = Some included ∧
    appended
      (trace (stepwise_selection X y OLS lit_0_01 lit_0_05 true 1 5 store).2)
      = [] ∧
    replay
      (trace (stepwise_selection X y OLS lit_0_01 lit_0_05 true 1 5 store).2)
      ["a"; "b"] = Some included ∧
    included `sublist_of` ["a"; "b"].
Proof.
  split_and!; [done|simpl; lia|].
  destruct (C4_no_addition_returns_part_of_initial X y OLS lit_0_01
              lit_0_05 true 1 ["a"; "b"] 5 store
              (trace
                 (stepwise_selection X y OLS lit_0_01 lit_0_05 true 1 5
                    store).2) eq_refl)
    as (ret & s' & included & Hrun & Hheap & Happ & Hrep & Hsub & _).
  - simpl; lia.
  - reflexivity.
  - intros pre post l Hevs Hr.
    pose proof (replay_held _ _ _ _ _ Hevs Hr) as Hin.
    vm_compute in Hin.
    assert (Hl : l = ["a"; "b"] ∨ l = ["b"]).
    { repeat (apply elem_of_cons in Hin as [->|Hin]; [auto|]).
      by apply elem_of_nil in Hin. }
    assert (Hcols : ∀ c, c ∈ columns X → c = "a" ∨ c = "b").
    { intros c Hc. apply elem_of_cons in Hc as [Hc|Hc]; [by left|].
      apply elem_of_cons in Hc as [Hc|Hc]; [by right|].
      by apply elem_of_nil in Hc. }
    destruct Hl; subst l;
      (split;
       [eexists _, _; split; [vm_compute; reflexivity|reflexivity]|]);
      intros c Hc Hn; destruct (Hcols c Hc); subst c;
      try (destruct Hn; by repeat constructor);
      eexists; (split; [vm_compute; reflexivity|reflexivity]).
  - exists ret, s', included. split_and!; assumption.
Defined.

(** ** What the loop owes to the fit

    Nothing in the loop bounds the number of passes: with the table
    [OLS_cycle], and [threshold_in < threshold_out], each pass appends one
    column and removes another, the included list goes round
    [["a"]], [["b"]], [["c"]], and no amount of fuel lets the call
    return.  That a call stops is a property of the p-values the fit
    hands over, not of this code alone. *)

Lemma cycle_pass fuel l :
  l = ["a"] ∨ l = ["b"] ∨ l = ["c"] →
  (while_val X3 y OLS_cycle lit_0_01 lit_0_05 false fuel l).2 = OutOfFuel.
Proof.
  revert l. induction fuel as [|fuel IH]; intros l Hl; [done|].
  cbn [while_val].
  destruct (forward_val X3 y OLS_cycle lit_0_01 false l)
    as [[evs1 cur1] r1] eqn:Hf.
  assert (Hnext : r1 = Val true ∧
    (l = ["a"] ∧ cur1 = ["a"; "b"] ∨ l = ["b"] ∧ cur1 = ["b"; "c"] ∨
     l = ["c"] ∧ cur1 = ["c"; "a"])).
  { destruct Hl as [->|[->| ->]]; vm_compute in Hf;
      injection Hf as <- <- <-; auto 10. }
  destruct Hnext as [-> Hcur1].
  destruct (backward_val X3 y OLS_cycle lit_0_05 false cur1 true)
    as [[evs2 cur2] r2] eqn:Hb.
  assert (Hback : r2 = Val true ∧
    (cur2 = ["a"] ∨ cur2 = ["b"] ∨ cur2 = ["c"])).
  { destruct Hcur1 as [[_ ->]|[[_ ->]|[_ ->]]]; vm_compute in Hb;
      injection Hb as <- <- <-; auto. }
  destruct Hback as [-> Hcur2]. cbn [negb].
  specialize (IH cur2 Hcur2).
  by destruct (while_val _ _ _ _ _ _ _ cur2) as [[evs3 cur3] r3].
Qed.

Lemma cycle_never_returns fuel :
  SFltb lit_0_01 lit_0_05 = true ∧
  (stepwise_selection X3 y OLS_cycle lit_0_01 lit_0_05 false 0 fuel store).1
    = OutOfFuel.
Proof.
  split; [done|]. rewrite stepwise_selection_run.
  change (default [] (heap store !! 0)) with (@nil name).
  destruct fuel as [|fuel]; [done|]. cbn [while_val].
  destruct (forward_val X3 y OLS_cycle lit_0_01 false [])
    as [[evs1 cur1] r1] eqn:Hf.
  vm_compute in Hf. injection Hf as <- <- <-.
  destruct (backward_val X3 y OLS_cycle lit_0_05 false ["c"] true)
    as [[evs2 cur2] r2] eqn:Hb.
  vm_compute in Hb. injection Hb as <- <- <-. cbn [negb].
  pose proof (cycle_pass fuel ["c"] (or_intror (or_intror eq_refl))) as Hw.
  destruct (while_val _ _ _ _ _ _ _ ["c"]) as [[evs3 cur3] r3].
  simpl in Hw. by subst r3.
Qed.

(** ** Further properties on the small data set *)

(** A call whose initial list names [z], which is no column of [X], after
    the column [a]: the first fit is never reached. *)
Lemma X2_witness :
  stepwise_selection X y OLS lit_0_01 lit_0_05 true 1 1
    (State [[]; ["a"; "z"]] [])
  = (Exn (KeyError "z"), State [[]; ["a"; "z"]; ["a"; "z"]] []).
Proof.
  apply (X2_missing_column_raises_KeyError X y OLS lit_0_01 lit_0_05 true
           1 ["a"] "z" [] 1 (State [[]; ["a"; "z"]] [])).
  - reflexivity.
  - intros x Hx. apply list_elem_of_singleton in Hx as ->.
    vm_compute. left.
  - apply (bool_decide_unpack _). vm_compute. reflexivity.
  - lia.
Defined.

(** The default call returns [["b"]] at address 3; a silent call on that
    list copies it to address 4 and neither appends nor removes. *)
Lemma X3_witness :
  ∃ evs included,
    heap (stepwise_selection X y OLS lit_0_01 lit_0_05 true 0 5 store).2
      !! 3 = Some included ∧
    stepwise_selection X y OLS lit_0_01 lit_0_05 false 3 1
      (stepwise_selection X y OLS lit_0_01 lit_0_05 true 0 5 store).2
    = (Val
         (length
            (heap
               (stepwise_selection X y OLS lit_0_01 lit_0_05 true 0 5
                  store).2)),
       State
         (heap (stepwise_selection X y OLS lit_0_01 lit_0_05 true 0 5 store).2
          ++ [included])
         (trace
            (stepwise_selection X y OLS lit_0_01 lit_0_05 true 0 5 store).2
          ++ evs)) ∧
    appended evs = [] ∧ removed evs = [].
Proof.
  apply (X3_selecting_again_changes_nothing X y OLS lit_0_01 lit_0_05
           true false 0 5 1 store 3
           (stepwise_selection X y OLS lit_0_01 lit_0_05 true 0 5 store).2).
  - vm_compute. reflexivity.
  - lia.
Defined.

(** With both thresholds NaN the call started from [["a"; "b"]] keeps
    that list, although [a] has p-value 0.5 beside [b]. *)
Lemma X4_witness :
  ∃ evs included,
    trace (stepwise_selection X y OLS nan nan true 1 5 store).2
      = trace store ++ evs ∧
    heap (stepwise_selection X y OLS nan nan true 1 5 store).2
      !! length (heap store) = Some included ∧
    (isnan nan = true → appended evs = []) ∧
    (isnan nan = true → removed evs = []) ∧
    (isnan nan = true → isnan nan = true → included = ["a"; "b"]).
Proof.
  apply (X4_nan_threshold_never_fires X y OLS nan nan true 1 ["a"; "b"] 5
           store).
  reflexivity.
Defined.

(** From the empty list both [a] and [b] have p-value 0.001: the forward
    step takes [a], the first of the two. *)
Lemma X5_witness :
  ∃ i f p,
    excluded_of X [] !! i = Some f ∧
    heap (forward_step X y OLS lit_0_01 true 0 store).2 !! 0
      = Some ([] ++ [f]) ∧
    candidate_pvalue X y OLS [] f = Val p ∧
    (∀ j c q, j < i → excluded_of X [] !! j = Some c →
       candidate_pvalue X y OLS [] c = Val q →
       isnan q = true ∨ lt p q = true) ∧
    (∀ j c q, excluded_of X [] !! j = Some c →
       candidate_pvalue X y OLS [] c = Val q → lt q p = false).
Proof.
  apply (X5_forward_takes_first_minimum X y OLS lit_0_01 true 0 [] store
           (forward_step X y OLS lit_0_01 true 0 store).2).
  - reflexivity.
  - vm_compute. reflexivity.
Defined.

(** On [["a"; "b"]] the p-value of [a], 0.5, is above 0.05: the backward
    step removes a name whose p-value no other exceeds. *)
Lemma X6_witness :
  ∃ i f q cur',
    pvalues_of X (default (λ _, nan) (OLS y X)) !! i = Some (f, q) ∧
    remove_first f ["a"; "b"] = Some cur' ∧
    (backward_step X y OLS lit_0_05 true 1 false store).1 = Val true ∧
    heap (backward_step X y OLS lit_0_05 true 1 false store).2 !! 1
      = Some cur' ∧
    (∀ j g q', j < i →
       pvalues_of X (default (λ _, nan) (OLS y X)) !! j = Some (g, q') →
       isnan q' = true ∨ gt q q' = true) ∧
    (∀ g q', (g, q') ∈ pvalues_of X (default (λ _, nan) (OLS y X)) →
       gt q' q = false).
Proof.
  apply (X6_backward_takes_first_maximum X y OLS lit_0_05 true 1
           ["a"; "b"] false store X (default (λ _, nan) (OLS y X))).
  - reflexivity.
  - vm_compute. reflexivity.
  - reflexivity.
  - exists "a", half. split; [|vm_compute; reflexivity].
    apply (list_elem_of_lookup_2 _ 0). vm_compute. reflexivity.
Defined.

(** The default call with a fit that accepts every design, on the frame
    [X], whose labels are distinct: it does not raise. *)
Lemma X7_witness :
  (stepwise_selection X y OLS_lenient lit_0_01 lit_0_05 true 0 5 store).1
    ≠ Exn FitError.
Proof.
  apply (X7_well_formed_call_never_raises X y OLS_lenient lit_0_01 lit_0_05
           true 0 [] 5 store FitError).
  - reflexivity.
  - apply (bool_decide_unpack _). vm_compute. reflexivity.
  - intros k Hk. by apply elem_of_nil in Hk.
  - intros l [|kv exog] _; simpl; eauto.
Defined.

(** The first pass of the default call: one fit for [a], one for [b],
    then, [a] appended, one fit on [a] alone. *)
Lemma X8_witness :
  ∃ evs exogs cur1 exog,
    trace
      (backward_step X y OLS lit_0_05 true 0 true
         (forward_step X y OLS lit_0_01 true 0 store).2).2
      = trace store ++ evs ∧
    fitted evs = exogs ++ [exog] ∧
    NoDup (excluded_of X []) ∧
    (∀ c, c ∈ excluded_of X [] ↔ c ∈ columns X ∧ c ∉ []) ∧
    Forall2 (λ c e, getitem X ([] ++ [c]) = Val e) (excluded_of X []) exogs ∧
    heap (forward_step X y OLS lit_0_01 true 0 store).2 !! 0 = Some cur1 ∧
    getitem X cur1 = Val exog.
Proof.
  apply (X8_fits_of_a_pass X y OLS lit_0_01 lit_0_05 true 0 [] store true
           (forward_step X y OLS lit_0_01 true 0 store).2 true
           (backward_step X y OLS lit_0_05 true 0 true
              (forward_step X y OLS lit_0_01 true 0 store).2).2).
  - reflexivity.
  - vm_compute. reflexivity.
  - vm_compute. reflexivity.
Defined.

(** The call started from [["a"; "b"]]: two names to begin with, one
    removed, none appended, one returned. *)
Lemma X9_witness :
  ∃ evs included,
    trace (stepwise_selection X y OLS lit_0_01 lit_0_05 true 1 5 store).2
      = trace store ++ evs ∧
    heap (stepwise_selection X y OLS lit_0_01 lit_0_05 true 1 5 store).2
      !! length (heap store) = Some included ∧
    length included + length (removed evs)
      = length ["a"; "b"] + length (appended evs) ∧
    (length (appended evs) ≤ 5)%nat ∧
    (length (removed evs) ≤ 5)%nat.
Proof.
  apply (X9_length_follows_the_changes X y OLS lit_0_01 lit_0_05 true 1
           ["a"; "b"] 5 store).
  reflexivity.
Defined.

(** With [a] and [b] both on the list the forward step leaves the store
    and the trace as they are. *)
Lemma X10_witness :
  forward_step X y OLS lit_0_01 true 1 store = (Val false, store).
Proof.
  apply (X10_nothing_left_to_add X y OLS lit_0_01 true 1 ["a"; "b"] store).
  - reflexivity.
  - intros c Hc. exact Hc.
Defined.

(** In the table [OLS_a] only [a] is ever significant, so there are no
    ties: the call returns [["a"]] whether the set of excluded columns is
    enumerated forwards or backwards. *)
Lemma X11_witness :
  ∃ s2 evs1 evs2,
    stepwise_selection (H := order_rev) X y OLS_a lit_0_01 lit_0_05 true 0 5
      store = (Val 3, s2) ∧
    heap s2
      = heap
          (stepwise_selection (H := order) X y OLS_a lit_0_01 lit_0_05 true
             0 5 store).2 ∧
    trace
      (stepwise_selection (H := order) X y OLS_a lit_0_01 lit_0_05 true 0 5
         store).2 = trace store ++ evs1 ∧
    trace s2 = trace store ++ evs2 ∧
    same_up_to_order evs2 evs1.
Proof.
  apply (X11_set_order_matters_only_for_ties X y OLS_a lit_0_01 lit_0_05
           order order_rev).
  - intros cur c c' p p' Hp Hp' Hlt Hlt' Hne.
    assert (Hsig : ∀ k q, candidate_pvalue X y OLS_a cur k = Val q →
      lt q lit_0_01 = true → k = "a").
    { intros k q Hq Hq'.
      apply candidate_pvalue_Val in Hq as (exog & p0 & _ & [= <-] & Hq).
      unfold Series_getitem in Hq.
      destruct (filter (λ kv, kv.1 = k) _) as [|kv [|]] eqn:Hf; [done| |done].
      injection Hq as <-.
      assert (Hin : kv ∈ filter (λ kv, kv.1 = k)
        (pvalues_of exog (λ i,
           match exog.*1 !! i with
           | Some k => if decide (k = "a") then milli else half
           | None => nan
           end))) by (rewrite Hf; left).
      apply list_elem_of_filter in Hin as [Hk Hin].
      apply list_elem_of_lookup_1 in Hin as [i Hi].
      unfold pvalues_of in Hi.
      apply list_lookup_imap_Some in Hi as ([k' col] & Hi & ->).
      simpl in *. subst k'. rewrite list_lookup_fmap, Hi in Hq'. simpl in Hq'.
      destruct (decide (k = "a")); [done|]. by vm_compute in Hq'. }
    destruct Hne. by rewrite (Hsig _ _ Hp Hlt), (Hsig _ _ Hp' Hlt').
  - vm_compute. reflexivity.
Defined.

(** A column with a gap at the top and one further down: the first stays
    missing, the second takes the value above it. *)
Lemma X12_witness :
  ffill [nan; f1; nan] = [nan; f1; f1] ∧
  columns (fillna_ffill [("y", [nan; f1; nan])]) = ["y"] ∧
  length (ffill [nan; f1; nan]) = 3 ∧
  ffill [nan; f1; nan] !! 2 = ffill [nan; f1; nan] !! 1.
Proof.
  destruct (X12_ffill_takes_the_value_above [("y", [nan; f1; nan])]
              [nan; f1; nan]) as (Hcols & _ & Hlen & _ & _ & Hgap).
  split_and!; [reflexivity|exact Hcols|exact Hlen|].
  apply (Hgap 1 nan); reflexivity.
Defined.

(** The first row of [[f1; nan; f2]] is present, so nothing is missing
    after the fill. *)
Lemma X13_witness :
  ffill [f1; nan; f2] = [f1; f1; f2] ∧
  Forall (λ v, isnan v = false) (ffill [f1; nan; f2]).
Proof.
  split; [reflexivity|].
  apply Forall_forall, (X13_ffill_leaves_leading_gaps [f1; nan; f2]).
  intros v Hv. injection Hv as <-. reflexivity.
Defined.

(** The script on a frame whose target column has a gap: the selection
    returns [["b"]] and the final fit is on the column [b] alone. *)
Lemma X14_witness :
  ∃ included exog p s',
    script OLS (("y", [f2; nan; f1]) :: X) 5 (State [] [])
      = (inr (Val (1, pvalues_of exog p)), s') ∧
    heap s' !! 1 = Some included ∧
    ("y" ∉ included) ∧
    getitem X included = Val exog ∧
    getitem (("y", [f2; f2; f1]) :: X) included = Val exog ∧
    OLS [f2; f2; f1] exog = Some p ∧
    (∀ f q, (f, q) ∈ pvalues_of exog p → gt q lit_0_05 = false).
Proof.
  apply (X14_script_reports_the_last_fit OLS (("y", [f2; nan; f1]) :: X)
           ("y", [f2; f2; f1]) X 5 (State [] []) 1).
  - reflexivity.
  - apply (bool_decide_unpack _). vm_compute. reflexivity.
  - vm_compute. reflexivity.
Defined.
